(** * gomdoc: the renderer and scanner packages, embedded and verified

    The development follows the two Go packages that carry the algorithmic
    content of the server:

    - [renderer]: [ParseFrontmatter], [RewriteLinks], [resolveLink];
    - [scanner]: [ScanDirectory], [BuildTree], [insertNode], [sortTree],
      [RenderTree], [escapeHTML].

    A Go [string] / [[]byte] is a sequence of bytes and is modelled as
    [list ascii].  The functions of Go's standard library that the two
    packages call ([strings], [path], [path/filepath], [regexp], [sort]) are
    modelled in the modules [GoStrings], [GoPath], [GoSort] and [GoRegexp]
    from their documented behaviour. *)

From Stdlib Require Import Ascii String List ZArith Lia Bool Arith.
From Stdlib Require Import Sorted Permutation.
Import ListNotations.

Local Open Scope string_scope.
Local Open Scope nat_scope.
Local Open Scope list_scope.

(** Go string literals are written as Rocq string literals and coerced. *)
Definition gostring : Type := list ascii.
Coercion list_ascii_of_string : string >-> list.

Definition dq : ascii := "034"%char.        (* the double quote *)
Definition DQ : gostring := [dq].
Definition SQ : gostring := ["039"%char].   (* the single quote *)
Definition lf : ascii := "010"%char.        (* the line feed *)
Definition LF : gostring := [lf].
Definition cr : ascii := "013"%char.        (* the carriage return *)
Definition CR : gostring := [cr].
Definition slash : ascii := "/"%char.

Definition gostring_eqb (a b : gostring) : bool :=
  if list_eq_dec ascii_dec a b then true else false.

(* ================================================================== *)
(** * Package [strings] (byte level) *)
(* ================================================================== *)

Module GoStrings.

(** [strings.HasPrefix(s, prefix)] *)
Fixpoint HasPrefix (s prefix : gostring) {struct prefix} : bool :=
  match prefix, s with
  | [], _ => true
  | p :: ps, c :: cs => Ascii.eqb c p && HasPrefix cs ps
  | _ :: _, [] => false
  end.

(** [strings.HasSuffix(s, suffix)] *)
Definition HasSuffix (s suffix : gostring) : bool :=
  HasPrefix (rev s) (rev suffix).

(** [strings.TrimSuffix(s, suffix)] *)
Definition TrimSuffix (s suffix : gostring) : gostring :=
  if HasSuffix s suffix then firstn (length s - length suffix) s else s.

(** [strings.Cut(s, sep)]: the text before and after the first occurrence
    of [sep]. *)
Fixpoint Cut (s sep : gostring) : option (gostring * gostring) :=
  if HasPrefix s sep then Some ([], skipn (length sep) s)
  else match s with
       | [] => None
       | c :: s' =>
           match Cut s' sep with
           | Some (before, after) => Some (c :: before, after)
           | None => None
           end
       end.

(** [strings.Index(s, substr)]: byte offset of the first occurrence, or -1. *)
Definition Index (s substr : gostring) : Z :=
  match Cut s substr with
  | Some (before, _) => Z.of_nat (length before)
  | None => (-1)%Z
  end.

(** The slice expressions [s[lo:]] and [s[lo:hi]].  Go panics when the
    bounds are out of range; every slice expression of the two packages is
    guarded so that its bounds are in range. *)
Definition sliceFrom (s : gostring) (lo : Z) : gostring :=
  skipn (Z.to_nat lo) s.
Definition slice (s : gostring) (lo hi : Z) : gostring :=
  firstn (Z.to_nat hi - Z.to_nat lo) (skipn (Z.to_nat lo) s).

(** [strings.Split(s, sep)] for a non-empty separator: cut at every
    occurrence of [sep].  [fuel] bounds the number of cuts; [Split] gives
    one more than the length of [s], which is never exhausted. *)
Fixpoint splitFuel (fuel : nat) (s sep : gostring) : list gostring :=
  match fuel with
  | O => [s]
  | S fuel' =>
      match Cut s sep with
      | Some (before, after) => before :: splitFuel fuel' after sep
      | None => [s]
      end
  end.

Definition Split (s sep : gostring) : list gostring :=
  splitFuel (S (length s)) s sep.

(** [strings.SplitN(s, sep, 2)] *)
Definition SplitN2 (s sep : gostring) : list gostring :=
  match Cut s sep with
  | Some (before, after) => [before; after]
  | None => [s]
  end.

(** [strings.Join(elems, sep)] *)
Fixpoint Join (elems : list gostring) (sep : gostring) : gostring :=
  match elems with
  | [] => []
  | [e] => e
  | e :: rest => e ++ sep ++ Join rest sep
  end.

(** [strings.ReplaceAll(s, old, new)] for a one-byte [old]. *)
Definition ReplaceAllByte (s : gostring) (old : ascii) (new : gostring)
  : gostring :=
  flat_map (fun c => if Ascii.eqb c old then new else [c]) s.

(** White space of [strings.TrimSpace] among the bytes below 0x80:
    tab, line feed, vertical tab, form feed, carriage return, space. *)
Definition isSpace (c : ascii) : bool :=
  let n := nat_of_ascii c in
  (n =? 9) || (n =? 10) || (n =? 11) || (n =? 12) || (n =? 13) || (n =? 32).

Fixpoint dropWhile (p : ascii -> bool) (s : gostring) : gostring :=
  match s with
  | [] => []
  | c :: s' => if p c then dropWhile p s' else s
  end.

(** [strings.TrimRightFunc(s, p)] *)
Definition trimRight (p : ascii -> bool) (s : gostring) : gostring :=
  rev (dropWhile p (rev s)).

(** [strings.TrimFunc(s, p)] *)
Definition trimFunc (p : ascii -> bool) (s : gostring) : gostring :=
  trimRight p (dropWhile p s).

(** [strings.TrimSpace(s)].  Exact on text whose bytes are below 0x80; on
    other text Go also trims the multi-byte Unicode spaces. *)
Definition TrimSpace (s : gostring) : gostring := trimFunc isSpace s.

Definition inCutset (cutset : gostring) (c : ascii) : bool :=
  existsb (Ascii.eqb c) cutset.

(** [strings.Trim(s, cutset)] for a cutset of bytes below 0x80. *)
Definition Trim (s cutset : gostring) : gostring :=
  trimFunc (inCutset cutset) s.

Definition lowerByte (c : ascii) : ascii :=
  let n := nat_of_ascii c in
  if (65 <=? n) && (n <=? 90) then ascii_of_nat (n + 32) else c.

(** [strings.ToLower(s)].  Exact on text whose bytes are below 0x80; on
    other text Go also lowers the capitals beyond the letters A to Z. *)
Definition ToLower (s : gostring) : gostring := map lowerByte s.

(** The comparison [a < b] of two Go strings: byte-wise lexicographic. *)
Fixpoint ltb (a b : gostring) : bool :=
  match a, b with
  | _, [] => false
  | [], _ :: _ => true
  | x :: a', y :: b' =>
      if (nat_of_ascii x <? nat_of_ascii y) then true
      else if (nat_of_ascii y <? nat_of_ascii x) then false
      else ltb a' b'
  end.

End GoStrings.

(* ================================================================== *)
(** * Package [path]: [Clean] and [Join] *)
(* ================================================================== *)

Module GoPath.
Import GoStrings.

Definition dotdot : gostring := "..".

(** One step of [path.Clean] on a path component.  [out] holds the
    components written so far, the last one first; the [..] components
    that a relative path could not resolve stay at its bottom. *)
Definition cleanStep (rooted : bool) (out : list gostring) (comp : gostring)
  : list gostring :=
  if gostring_eqb comp [] then out            (* empty path element *)
  else if gostring_eqb comp "." then out      (* current directory *)
  else if gostring_eqb comp dotdot then
    match out with
    | top :: below =>
        if gostring_eqb top dotdot
        then (if rooted then out else dotdot :: out)
        else below                            (* can backtrack *)
    | [] => if rooted then out else [dotdot]  (* cannot backtrack *)
    end
  else comp :: out.                           (* real path element *)

(** [path.Clean(path)] *)
Definition Clean (path : gostring) : gostring :=
  if gostring_eqb path [] then "." else
  let rooted := HasPrefix path "/" in
  let out := fold_left (cleanStep rooted) (Split path "/") [] in
  let body := Join (rev out) "/" in
  if rooted then "/" ++ body
  else if gostring_eqb body [] then "." else body.

(** [path.Join(elem...)] *)
Definition JoinPath (elem : list gostring) : gostring :=
  let buf :=
    fold_left
      (fun (buf : gostring) (e : gostring) =>
         if negb (gostring_eqb buf []) || negb (gostring_eqb e []) then
           (if negb (gostring_eqb buf []) then buf ++ "/" else buf) ++ e
         else buf)
      elem [] in
  if gostring_eqb (concat elem) [] then [] else Clean buf.

(** [filepath.Ext(path)] on a Unix system: the suffix beginning at the
    final dot of the final element, or empty. *)
Fixpoint extRev (revPath acc : gostring) : gostring :=
  match revPath with
  | [] => []
  | c :: rest =>
      if Ascii.eqb c "/" then []
      else if Ascii.eqb c "." then c :: acc
      else extRev rest (c :: acc)
  end.

Definition Ext (path : gostring) : gostring := extRev (rev path) [].

End GoPath.

(* ================================================================== *)
(** * Package [regexp], for the one pattern of the renderer *)
(* ================================================================== *)

Module GoRegexp.
Import GoStrings.

(** The regular expressions that [linkPattern] is made of. *)
Inductive regexp : Type :=
| Literal (s : gostring)
| NotByte (c : ascii)             (* the class of all bytes but [c] *)
| Star (r : regexp)
| Concat (r1 r2 : regexp)
| Alternate (r1 r2 : regexp)
| Capture (r : regexp).

(** [matches r s groups]: the expression [r] matches the text [s], and
    [groups] are the texts of its capture groups. *)
Inductive matches : regexp -> gostring -> list gostring -> Prop :=
| matches_Literal (s : gostring) : matches (Literal s) s []
| matches_NotByte (c x : ascii) : x <> c -> matches (NotByte c) [x] []
| matches_Star_nil (r : regexp) : matches (Star r) [] []
| matches_Star_cons (r : regexp) (s1 s2 : gostring) (g1 g2 : list gostring) :
    matches r s1 g1 -> matches (Star r) s2 g2 ->
    matches (Star r) (s1 ++ s2) g2
| matches_Concat (r1 r2 : regexp) (s1 s2 : gostring)
    (g1 g2 : list gostring) :
    matches r1 s1 g1 -> matches r2 s2 g2 ->
    matches (Concat r1 r2) (s1 ++ s2) (g1 ++ g2)
| matches_Alternate_l (r1 r2 : regexp) (s : gostring) (g : list gostring) :
    matches r1 s g -> matches (Alternate r1 r2) s g
| matches_Alternate_r (r1 r2 : regexp) (s : gostring) (g : list gostring) :
    matches r2 s g -> matches (Alternate r1 r2) s g
| matches_Capture (r : regexp) (s : gostring) (g : list gostring) :
    matches r s g -> matches (Capture r) s (s :: g).

(** The opening literal of [linkPattern]: href= and a double quote. *)
Definition hrefOpen : gostring := "href=" ++ DQ.

(** [stripPrefix p s] is [Some r] when [s] is [p ++ r]. *)
Fixpoint stripPrefix (p s : gostring) {struct p} : option gostring :=
  match p, s with
  | [], _ => Some s
  | x :: p', c :: s' => if Ascii.eqb c x then stripPrefix p' s' else None
  | _ :: _, [] => None
  end.

(** [linkPattern]: the opening literal; the capture group, made of any
    number of bytes other than the double quote, a dot, and md or MD; the
    closing double quote. *)
Definition linkPattern : regexp :=
  Concat (Literal hrefOpen)
    (Concat
       (Capture
          (Concat (Star (NotByte dq))
             (Concat (Literal ".")
                (Alternate (Literal "md") (Literal "MD")))))
       (Literal DQ)).

(** The two alternatives of the group [(?:md|MD)], after the literal dot. *)
Definition endsInExtension (target : gostring) : bool :=
  HasSuffix target ".md" || HasSuffix target ".MD".

(** The matcher of [linkPattern] anchored at the start of [s].  The class
    cannot cross a quote and the pattern ends with a quote, so the
    capture group is the text up to the first quote after the opening
    literal; at a given start there is at most one match
    ([matchAt_linkPattern], [linkPattern_unique]).  The result is the
    capture group and the text after the match. *)
Definition matchAt (s : gostring) : option (gostring * gostring) :=
  match stripPrefix hrefOpen s with
  | None => None
  | Some r =>
      match Cut r DQ with
      | None => None
      | Some (target, rest) =>
          if endsInExtension target then Some (target, rest) else None
      end
  end.

(** The text of a match whose capture group is [target]. *)
Definition matchText (target : gostring) : gostring :=
  hrefOpen ++ target ++ DQ.

(** [linkPattern.FindSubmatch(b)]: the capture group of the leftmost
    match. *)
Fixpoint FindSubmatch (b : gostring) : option gostring :=
  match matchAt b with
  | Some (target, _) => Some target
  | None =>
      match b with
      | [] => None
      | _ :: b' => FindSubmatch b'
      end
  end.

(** [linkPattern.ReplaceAllFunc(src, repl)]: the matches are found from
    left to right without overlap, each is replaced by [repl] of its text,
    and the bytes between matches are copied.  [fuel] bounds the number of
    steps; [ReplaceAllFunc] gives the length of [src], which is never
    exhausted ([replaceFuel_enough]). *)
Fixpoint replaceFuel (fuel : nat) (repl : gostring -> gostring)
  (src : gostring) : gostring :=
  match fuel with
  | O => src
  | S fuel' =>
      match matchAt src with
      | Some (target, rest) =>
          repl (matchText target) ++ replaceFuel fuel' repl rest
      | None =>
          match src with
          | [] => []
          | c :: src' => c :: replaceFuel fuel' repl src'
          end
      end
  end.

Definition ReplaceAllFunc (src : gostring) (repl : gostring -> gostring)
  : gostring :=
  replaceFuel (length src) repl src.

(** [noMatch s]: [linkPattern] matches nowhere in [s]. *)
Fixpoint noMatch (s : gostring) : bool :=
  match matchAt s with
  | Some _ => false
  | None => match s with [] => true | _ :: s' => noMatch s' end
  end.

End GoRegexp.

(* ================================================================== *)
(** * Package [renderer] *)
(* ================================================================== *)

Module Renderer.
Import GoStrings GoPath GoRegexp.

(** [Frontmatter] *)
Record Frontmatter : Type := { Title : gostring; Author : gostring }.

Definition quotes : gostring := DQ ++ SQ.

(** The body of the loop over the lines of the block: one key-value
    pair. *)
Definition parseLine (fm : Frontmatter) (line : gostring) : Frontmatter :=
  let line := TrimSpace line in
  if gostring_eqb line [] then fm
  else
    match SplitN2 line ":" with
    | [k; v] =>
        let key := TrimSpace k in
        let value := TrimSpace v in
        let value := Trim value quotes in
        let key := ToLower key in
        if gostring_eqb key "title"
        then {| Title := value; Author := Author fm |}
        else if gostring_eqb key "author"
        then {| Title := Title fm; Author := value |}
        else fm
    | _ => fm
    end.

(** [ParseFrontmatter] *)
Definition ParseFrontmatter (content : gostring) : Frontmatter * gostring :=
  let fm := {| Title := []; Author := [] |} in
  let text := content in
  if negb (HasPrefix text ("---" ++ LF))
     && negb (HasPrefix text ("---" ++ CR ++ LF))
  then (fm, content)
  else
    let endIndex :=
      if HasPrefix text ("---" ++ CR ++ LF) then
        let endIndex := Index (sliceFrom text 5) (LF ++ "---") in
        if negb (endIndex =? -1)%Z then (endIndex + 5)%Z else endIndex
      else
        let endIndex := Index (sliceFrom text 4) (LF ++ "---") in
        if negb (endIndex =? -1)%Z then (endIndex + 4)%Z else endIndex in
    if (endIndex =? -1)%Z then (fm, content)
    else
      let fmBlock :=
        if HasPrefix text ("---" ++ CR ++ LF)
        then slice text 5 endIndex
        else slice text 4 endIndex in
      let lines := Split fmBlock LF in
      let fm := fold_left parseLine lines fm in
      let remaining := sliceFrom text (endIndex + 4) in
      let remaining :=
        if HasPrefix remaining (CR ++ LF) then sliceFrom remaining 2
        else if HasPrefix remaining LF then sliceFrom remaining 1
        else remaining in
      (fm, remaining).

(** [resolveLink] *)
Definition resolveLink (linkPath currentDir : gostring) : gostring :=
  if HasPrefix linkPath "/" then sliceFrom linkPath 1
  else if gostring_eqb currentDir [] || gostring_eqb currentDir "."
  then linkPath
  else
    let joined := JoinPath [currentDir; linkPath] in
    Clean joined.

(** The test that skips external links. *)
Definition isExternal (linkPath : gostring) : bool :=
  HasPrefix linkPath "http://" || HasPrefix linkPath "https://".

(** The route computed for a link that is not external. *)
Definition route (linkPath currentDir : gostring) : gostring :=
  let resolvedPath := resolveLink linkPath currentDir in
  let resolvedPath := TrimSuffix resolvedPath ".md" in
  let resolvedPath := TrimSuffix resolvedPath ".MD" in
  if negb (HasPrefix resolvedPath "/") then "/" ++ resolvedPath
  else resolvedPath.

(** The function literal passed to [ReplaceAllFunc]. *)
Definition rewriteMatch (currentDir : gostring) (m : gostring) : gostring :=
  match FindSubmatch m with
  | None => m
  | Some linkPath =>
      if isExternal linkPath then m
      else hrefOpen ++ route linkPath currentDir ++ DQ
  end.

(** [RewriteLinks] *)
Definition RewriteLinks (htmlContent currentDir : gostring) : gostring :=
  ReplaceAllFunc htmlContent (rewriteMatch currentDir).

End Renderer.

(* ================================================================== *)
(** * Package [sort] *)
(* ================================================================== *)

Module GoSort.

Section Slice.
Context {A : Type} (less : A -> A -> bool).

(** The inner loop of the insertion sort: the new element, placed after
    the sorted prefix, is swapped towards the front while it is less
    than its predecessor.  [sortedRev] is the sorted prefix, the last
    element first. *)
Fixpoint insertBack (x : A) (sortedRev : list A) : list A :=
  match sortedRev with
  | [] => [x]
  | y :: before =>
      if less x y then y :: insertBack x before else x :: sortedRev
  end.

(** [sort.Slice(x, less)].  Go sorts a slice of at most 12 elements with
    exactly this insertion sort.  On a longer slice it runs a
    pattern-defeating quicksort, whose result is this one up to the
    order of elements that compare equal. *)
Definition Slice (x : list A) : list A :=
  rev (fold_left (fun sortedRev e => insertBack e sortedRev) x []).
End Slice.

End GoSort.

(* ================================================================== *)
(** * The file system seen by [filepath.Walk] *)
(* ================================================================== *)

Module GoFS.

(** A node of the file system, as [os.Lstat] and the directory listing
    present it.  The entries of a directory are in the order of the
    listing that [Walk] iterates over, which is sorted by name. *)
#[warnings="-register-all"]
Inductive FsNode : Type :=
| File (name : gostring)                        (* not a directory *)
| Dir (name : gostring) (entries : list FsNode) (* a directory that can be listed *)
| DirUnreadable (name : gostring)               (* a directory whose listing fails *)
| Broken (name : gostring).                     (* [os.Lstat] fails *)

(** The induction principle that reaches the entries of a directory. *)
Section FsNode_induction.
Variable P : FsNode -> Prop.
Hypothesis HFile : forall name, P (File name).
Hypothesis HDir :
  forall name entries, Forall P entries -> P (Dir name entries).
Hypothesis HUnreadable : forall name, P (DirUnreadable name).
Hypothesis HBroken : forall name, P (Broken name).

Fixpoint FsNode_nested_ind (node : FsNode) : P node :=
  match node with
  | File name => HFile name
  | Dir name entries =>
      HDir name entries
        ((fix all (l : list FsNode) : Forall P l :=
            match l with
            | [] => Forall_nil P
            | x :: l' => Forall_cons x (FsNode_nested_ind x) (all l')
            end) entries)
  | DirUnreadable name => HUnreadable name
  | Broken name => HBroken name
  end.
End FsNode_induction.

Definition nodeName (n : FsNode) : gostring :=
  match n with
  | File name | Dir name _ | DirUnreadable name | Broken name => name
  end.

Definition isDirNode (n : FsNode) : bool :=
  match n with
  | Dir _ _ | DirUnreadable _ => true
  | File _ | Broken _ => false
  end.

(** [os.FileInfo], with the two methods the scanner calls. *)
Record FileInfo : Type := { Name : gostring; IsDir : bool }.

Definition lstat (n : FsNode) : FileInfo :=
  {| Name := nodeName n; IsDir := isDirNode n |}.

(** A location is the list of names from the root of the walk down to a
    node.  [Walk] builds the path of a node by joining the root with these
    names. *)
Definition location : Type := list gostring.

Inductive fsError : Type :=
| LstatError (at_ : location)
| ReadDirError (at_ : location).

(** The [error] a [WalkFunc] returns: [nil], [filepath.SkipDir], or a
    failure.  ([filepath.SkipAll] is never returned by the scanner.) *)
Inductive walkError : Type :=
| NoError
| SkipDir
| Failure (e : fsError).

Section Walk.
Context {S : Type}.
(** The [WalkFunc], threading the state it closes over. *)
Variable walkFn :
  location -> option FileInfo -> option fsError -> S -> S * walkError.

(** The loop of [walk] over the listing of the directory at [path]. *)
Definition walkEntriesWith
  (walk : location -> FsNode -> S -> S * walkError)
  (path : location) : list FsNode -> S -> S * walkError :=
  fix loop (names : list FsNode) (st : S) : S * walkError :=
    match names with
    | [] => (st, NoError)
    | child :: names' =>
        let filename := path ++ [nodeName child] in
        match child with
        | Broken _ =>
            let '(st', err) :=
              walkFn filename None (Some (LstatError filename)) st in
            match err with
            | Failure _ => (st', err)
            | _ => loop names' st'
            end
        | _ =>
            let '(st', err) := walk filename child st in
            match err with
            | NoError => loop names' st'
            | SkipDir =>
                if isDirNode child then loop names' st' else (st', err)
            | Failure _ => (st', err)
            end
        end
    end.

(** [walk]: the function is called once for every node; for a
    directory it is called after the listing was read, with the error
    of the listing, and the entries are visited only when both the
    listing and the call succeeded. *)
Fixpoint walk (path : location) (node : FsNode) (st : S)
  {struct node} : S * walkError :=
  match node with
  | File _ => walkFn path (Some (lstat node)) None st
  | Broken _ => walkFn path None (Some (LstatError path)) st
  | DirUnreadable _ =>
      walkFn path (Some (lstat node)) (Some (ReadDirError path)) st
  | Dir _ entries =>
      let '(st1, err1) := walkFn path (Some (lstat node)) None st in
      match err1 with
      | NoError =>
          walkEntriesWith walk path entries st1
      | _ => (st1, err1)
      end
  end.

Definition walkEntries : location -> list FsNode -> S -> S * walkError :=
  walkEntriesWith walk.

(** [filepath.Walk(root, fn)]: [SkipDir] at the root ends the walk
    without error. *)
Definition Walk (root : FsNode) (st : S) : S * option fsError :=
  let '(st', err) := walk [] root st in
  match err with
  | Failure e => (st', Some e)
  | _ => (st', None)
  end.
End Walk.

(** [filepath.Rel(root, path)] for the path of a node of the walk: the
    names below the root joined by the separator, and a dot for the root
    itself. *)
Definition Rel (path : location) : gostring :=
  match path with
  | [] => "."
  | _ :: _ => GoStrings.Join path "/"
  end.

(** [filepath.ToSlash] where the separator is the slash. *)
Definition ToSlash (path : gostring) : gostring := path.

End GoFS.

(* ================================================================== *)
(** * Package [scanner] *)
(* ================================================================== *)

Module Scanner.
Import GoStrings GoPath GoSort GoFS.

(** [FileEntry] *)
Module FileEntry.
Record t : Type := { RelPath : gostring; Name : gostring }.
End FileEntry.

(** [TreeNode].  The Go type holds pointers to its children and the tree
    is built by mutation; here a node holds its children and every
    operation returns the updated node. *)
Module TreeNode.
#[warnings="-register-all"]
Inductive t : Type :=
| mk (Name : gostring) (Path : gostring) (IsDir : bool) (Children : list t).

(** The induction principle that reaches the children of a node. *)
Section nested_induction.
Variable P : t -> Prop.
Hypothesis Hmk :
  forall name path isDir children,
    Forall P children -> P (mk name path isDir children).

Fixpoint nested_ind (n : t) : P n :=
  match n with
  | mk name path isDir children =>
      Hmk name path isDir children
        ((fix all (l : list t) : Forall P l :=
            match l with
            | [] => Forall_nil P
            | x :: l' => Forall_cons x (nested_ind x) (all l')
            end) children)
  end.
End nested_induction.

Definition Name (n : t) : gostring := let 'mk x _ _ _ := n in x.
Definition Path (n : t) : gostring := let 'mk _ x _ _ := n in x.
Definition IsDir (n : t) : bool := let 'mk _ _ x _ := n in x.
Definition Children (n : t) : list t := let 'mk _ _ _ x := n in x.

Definition setChildren (n : t) (cs : list t) : t :=
  mk (Name n) (Path n) (IsDir n) cs.

(** The node and all the nodes below it. *)
Fixpoint nodes (n : t) : list t :=
  match n with
  | mk _ _ _ children => n :: flat_map nodes children
  end.
End TreeNode.

Inductive result (A : Type) : Type :=
| Ok (value : A)
| Error (err : fsError).
Arguments Ok {A} value.
Arguments Error {A} err.

(** The function literal passed to [filepath.Walk]; the state is the
    slice [entries] it appends to. *)
Definition scanFn (path : location) (info : option FileInfo)
  (err : option fsError) (entries : list FileEntry.t)
  : list FileEntry.t * walkError :=
  match err with
  | Some e => (entries, Failure e)
  | None =>
      match info with
      | None => (entries, NoError)   (* [info] is nil only with an error *)
      | Some info =>
          if HasPrefix (GoFS.Name info) "." then
            if GoFS.IsDir info then (entries, SkipDir)
            else (entries, NoError)
          else if GoFS.IsDir info then (entries, NoError)
          else if negb (HasSuffix (ToLower (GoFS.Name info)) ".md")
          then (entries, NoError)
          else
            let relPath := Rel path in
            let name :=
              TrimSuffix (GoFS.Name info) (Ext (GoFS.Name info)) in
            (entries ++ [{| FileEntry.RelPath := relPath;
                            FileEntry.Name := name |}], NoError)
      end
  end.

(** [ScanDirectory] *)
Definition ScanDirectory (root : FsNode) : result (list FileEntry.t) :=
  let '(entries, err) := Walk scanFn root [] in
  match err with
  | Some e => Error e
  | None =>
      Ok (Slice (fun a b => ltb (FileEntry.RelPath a) (FileEntry.RelPath b))
            entries)
  end.

(** The search loop of [insertNode]: the index of the first child named
    [name]. *)
Fixpoint findChild (children : list TreeNode.t) (name : gostring)
  : option nat :=
  match children with
  | [] => None
  | c :: rest =>
      if gostring_eqb (TreeNode.Name c) name then Some 0
      else option_map S (findChild rest name)
  end.

Fixpoint updateAt (i : nat) (f : TreeNode.t -> TreeNode.t)
  (children : list TreeNode.t) : list TreeNode.t :=
  match children, i with
  | [], _ => []
  | c :: rest, O => f c :: rest
  | c :: rest, S i' => c :: updateAt i' f rest
  end.

(** [insertNode] *)
Fixpoint insertNode (parent : TreeNode.t) (parts : list gostring)
  (entry : FileEntry.t) {struct parts} : TreeNode.t :=
  match parts with
  | [] => parent
  | part :: rest =>
      (* Recurse for directories *)
      let recurse (child : TreeNode.t) : TreeNode.t :=
        if 1 <? length parts then insertNode child rest entry else child in
      match findChild (TreeNode.Children parent) part with
      | Some i =>
          TreeNode.setChildren parent
            (updateAt i recurse (TreeNode.Children parent))
      | None =>
          let isFile := length parts =? 1 in
          let urlPath := TrimSuffix (FileEntry.RelPath entry) ".md" in
          let urlPath := TrimSuffix urlPath ".MD" in
          let child :=
            TreeNode.mk part
              (if isFile then "/" ++ ToSlash urlPath else [])
              (negb isFile) [] in
          TreeNode.setChildren parent
            (TreeNode.Children parent ++ [recurse child])
      end
  end.

(** The [less] function of [sortTree]. *)
Definition lessNode (a b : TreeNode.t) : bool :=
  if negb (Bool.eqb (TreeNode.IsDir a) (TreeNode.IsDir b))
  then TreeNode.IsDir a
  else ltb (ToLower (TreeNode.Name a)) (ToLower (TreeNode.Name b)).

(** [sortTree].  The children are sorted and the directories among them
    are sorted in turn.  The recursion is written on the children before
    they are put in order; [sortTree_eq] gives the equation in the order
    of the Go code. *)
Fixpoint sortTree (node : TreeNode.t) : TreeNode.t :=
  match node with
  | TreeNode.mk name path isDir children =>
      TreeNode.mk name path isDir
        (Slice lessNode
           (map (fun child =>
                   if TreeNode.IsDir child then sortTree child else child)
              children))
  end.

(** [BuildTree] *)
Definition BuildTree (entries : list FileEntry.t) : TreeNode.t :=
  let root := TreeNode.mk "root" [] true [] in
  let root :=
    fold_left
      (fun root entry =>
         let parts := Split (ToSlash (FileEntry.RelPath entry)) "/" in
         insertNode root parts entry)
      entries root in
  sortTree root.

(** [escapeHTML] *)
Definition escapeHTML (s : gostring) : gostring :=
  let s := ReplaceAllByte s "&" "&amp;" in
  let s := ReplaceAllByte s "<" "&lt;" in
  let s := ReplaceAllByte s ">" "&gt;" in
  let s := ReplaceAllByte s "034" "&quot;" in
  s.

(** [renderTreeNode]; [sb] is the [strings.Builder] written to. *)
Fixpoint renderTreeNode (sb : gostring) (node : TreeNode.t) (depth : nat)
  {struct node} : gostring :=
  match node with
  | TreeNode.mk name path isDir children =>
      if depth =? 0 then
        let sb := sb ++ "<ul class=" ++ DQ ++ "file-tree" ++ DQ ++ ">" ++ LF in
        let sb :=
          fold_left (fun sb child => renderTreeNode sb child (depth + 1))
            children sb in
        sb ++ "</ul>" ++ LF
      else
        let sb := sb ++ "<li>" in
        let sb :=
          if isDir then
            let sb := sb ++ "<span class=" ++ DQ ++ "folder" ++ DQ ++ ">" in
            let sb := sb ++ escapeHTML name in
            let sb := sb ++ "</span>" ++ LF in
            if 0 <? length children then
              let sb := sb ++ "<ul>" ++ LF in
              let sb :=
                fold_left
                  (fun sb child => renderTreeNode sb child (depth + 1))
                  children sb in
              sb ++ "</ul>" ++ LF
            else sb
          else sb in
        let sb :=
          if negb isDir then
            let sb := sb ++ "<a href=" ++ DQ in
            let sb := sb ++ path in
            let sb := sb ++ DQ ++ " class=" ++ DQ ++ "file" ++ DQ ++ ">" in
            let sb := sb ++ escapeHTML name in
            sb ++ "</a>"
          else sb in
        sb ++ "</li>" ++ LF
  end.

(** [RenderTree] *)
Definition RenderTree (node : TreeNode.t) : gostring :=
  renderTreeNode [] node 0.

End Scanner.

(* ================================================================== *)
(** * More of the packages [strings] and [path/filepath] *)
(* ================================================================== *)

Module GoStringsMore.
Import GoStrings.

(** [strings.TrimPrefix(s, prefix)] *)
Definition TrimPrefix (s prefix : gostring) : gostring :=
  if HasPrefix s prefix then skipn (length prefix) s else s.

(** The pieces of [s] between the occurrences of the byte [q], without
    fuel; [Split_splitByte] shows that [Split] computes them. *)
Fixpoint splitByte (q : ascii) (s : gostring) : list gostring :=
  match s with
  | [] => [[]]
  | c :: s' =>
      if Ascii.eqb c q then [] :: splitByte q s'
      else match splitByte q s' with
           | piece :: pieces => (c :: piece) :: pieces
           | [] => [[c]]
           end
  end.

End GoStringsMore.

Module GoFilepath.
Import GoStrings GoPath.

(** The text up to and including the last separator. *)
Fixpoint dirPart (path : gostring) : gostring :=
  match path with
  | [] => []
  | c :: rest =>
      if existsb (Ascii.eqb slash) path then c :: dirPart rest else []
  end.

(** [filepath.Dir(path)] where the separator is the slash and there is no
    volume name: the cleaned text up to the last separator. *)
Definition Dir (path : gostring) : gostring := Clean (dirPart path).

(** The text after the last separator. *)
Fixpoint lastElement (path : gostring) : gostring :=
  match path with
  | [] => []
  | c :: rest =>
      if existsb (Ascii.eqb slash) path then lastElement rest else path
  end.

(** [filepath.Base(path)], same setting: the last element of the path
    once trailing separators are removed. *)
Definition Base (path : gostring) : gostring :=
  if gostring_eqb path [] then "."
  else
    let path := trimRight (Ascii.eqb slash) path in
    let path := lastElement path in
    if gostring_eqb path [] then "/" else path.

(** [filepath.Join(elem...)]; with the slash as separator it joins and
    cleans like [path.Join]. *)
Definition Join (elem : list gostring) : gostring := JoinPath elem.

End GoFilepath.

(* ================================================================== *)
(** * Package [renderer]: the conversion with link rewriting *)
(* ================================================================== *)

Module RenderPipeline.
Import Renderer.

Section WithEngine.
(** [Renderer.Render]: the conversion engine; [None] is its error. *)
Variable Render : gostring -> option gostring.

(** [RenderWithLinks] *)
Definition RenderWithLinks (content currentDir : gostring)
  : option gostring :=
  match Render content with
  | None => None
  | Some html => Some (RewriteLinks html currentDir)
  end.
End WithEngine.

End RenderPipeline.

(* ================================================================== *)
(** * Package [main]: the [-auth] flag *)
(* ================================================================== *)

Module Main.
Import GoStrings.

(** The outcome of the validation of the flag: the credentials handed to
    [server.New], or the fatal error. *)
Inductive authFlag : Type :=
| Credentials (authUser authPass : gostring)
| InvalidAuthFormat.

(** The validation of [-auth] in [main]. *)
Definition parseAuth (auth : gostring) : authFlag :=
  if negb (gostring_eqb auth []) then
    match SplitN2 auth ":" with
    | [user; pass] =>
        if gostring_eqb user [] || gostring_eqb pass []
        then InvalidAuthFormat
        else Credentials user pass
    | _ => InvalidAuthFormat
    end
  else Credentials [] [].

End Main.

(* ================================================================== *)
(** * Package [server] *)
(* ================================================================== *)

Module Server.
Import GoStrings GoStringsMore GoPath GoFS Renderer RenderPipeline Scanner.

(** [templates.PageData], as [handleMarkdown] fills it. *)
Module PageData.
Record t : Type :=
  { Title : gostring; SiteTitle : gostring; Author : gostring;
    Content : gostring; Path : gostring }.
End PageData.

(** [templates.IndexData], as [handleIndex] fills it. *)
Module IndexData.
Record t : Type :=
  { Title : gostring; SiteTitle : gostring; TreeHTML : gostring }.
End IndexData.

(** What a handler does with the response writer: an error status, or
    the execution of a template on its data. *)
Inductive response : Type :=
| NotFound                              (* 404, File not found *)
| InternalServerError                   (* 500 *)
| Unauthorized                          (* 401 *)
| Page (data : PageData.t)              (* templates.RenderPage *)
| Index (data : IndexData.t).           (* templates.RenderIndex *)

Section Handlers.
(** The fields of [Server]. *)
Variable baseDir : gostring.
Variable title : gostring.
Variable authUser authPass : gostring.
(** [os.ReadFile]; [None] is its error. *)
Variable ReadFile : gostring -> option gostring.
(** The conversion engine of the renderer. *)
Variable Render : gostring -> option gostring.

(** The two reads at the head of [handleMarkdown]: the lower-case
    extension first, then the upper-case one. *)
Definition readMarkdown (urlPath : gostring) : option gostring :=
  let filePath := GoFilepath.Join [baseDir; urlPath ++ ".md"] in
  match ReadFile filePath with
  | Some content => Some content
  | None =>
      let filePath := GoFilepath.Join [baseDir; urlPath ++ ".MD"] in
      ReadFile filePath
  end.

(** [handleMarkdown]; [requestPath] is [r.URL.Path]. *)
Definition handleMarkdown (requestPath : gostring) : response :=
  let urlPath := TrimPrefix requestPath "/" in
  match readMarkdown urlPath with
  | None => NotFound
  | Some content =>
      let '(frontmatter, content) := ParseFrontmatter content in
      let currentDir := GoFilepath.Dir urlPath in
      let currentDir :=
        if gostring_eqb currentDir "." then [] else currentDir in
      match RenderWithLinks Render content currentDir with
      | None => InternalServerError
      | Some html =>
          let title' := Renderer.Title frontmatter in
          let title' :=
            if gostring_eqb title' [] then GoFilepath.Base urlPath
            else title' in
          Page {| PageData.Title := title';
                  PageData.SiteTitle := title;
                  PageData.Author := Renderer.Author frontmatter;
                  PageData.Content := html;
                  PageData.Path := requestPath |}
      end
  end.

(** [handleIndex]; [root] is the file system at [baseDir]. *)
Definition handleIndex (root : FsNode) : response :=
  match ScanDirectory root with
  | Error _ => InternalServerError
  | Ok entries =>
      let tree := BuildTree entries in
      let treeHTML := RenderTree tree in
      Index {| IndexData.Title := "Index";
               IndexData.SiteTitle := title;
               IndexData.TreeHTML := treeHTML |}
  end.

(** [handleRequest] *)
Definition handleRequest (root : FsNode) (requestPath : gostring)
  : response :=
  if gostring_eqb requestPath "/" then handleIndex root
  else handleMarkdown requestPath.

(** [basicAuthMiddleware]; [basicAuth] is the result of [r.BasicAuth()],
    [None] when there are no usable credentials in the request. *)
Definition basicAuthMiddleware (next : response)
  (basicAuth : option (gostring * gostring)) : response :=
  match basicAuth with
  | None => Unauthorized
  | Some (user, pass) =>
      if negb (gostring_eqb user authUser)
         || negb (gostring_eqb pass authPass)
      then Unauthorized
      else next
  end.

(** The handler that [Start] installs, given what the routes respond:
    the middleware wraps the routes only when a user name is
    configured. *)
Definition startHandler (mux : response)
  (basicAuth : option (gostring * gostring)) : response :=
  if negb (gostring_eqb authUser []) then
    basicAuthMiddleware mux basicAuth
  else mux.
End Handlers.

End Server.

(* ================================================================== *)
(** * The notions the properties are stated with *)
(* ================================================================== *)

Module Properties.
Import GoStrings GoPath GoRegexp GoSort GoFS Renderer Scanner.

(** ** Metadata blocks *)

Definition noMetadata : Frontmatter := {| Title := []; Author := [] |}.

(** The closing delimiter as [ParseFrontmatter] searches it. *)
Definition closing : gostring := LF ++ "---".

(** The end of the line of the closing delimiter is skipped. *)
Definition skipTerminator (remaining : gostring) : gostring :=
  if HasPrefix remaining (CR ++ LF) then sliceFrom remaining 2
  else if HasPrefix remaining LF then sliceFrom remaining 1
  else remaining.

(** A document whose metadata block declares a title and an author; every
    line ends with [eol]. *)
Definition metadataDocument (eol titleValue authorValue body : gostring)
  : gostring :=
  "---" ++ eol
    ++ "title:" ++ titleValue ++ eol
    ++ "author:" ++ authorValue ++ eol
    ++ "---" ++ eol
    ++ body.

(** The bytes on which the models of [TrimSpace] and [ToLower] are
    exact. *)
Definition isASCII (s : gostring) : bool :=
  forallb (fun c => nat_of_ascii c <? 128) s.

(** ** Reference attributes *)

(** The two reference attributes of the frame property. *)
Definition refExternalMd : gostring := matchText "external.md".
Definition refHttps : gostring := matchText "https://example.com/page.md".

(** ** The scanned file system *)




Definition hidden (name : gostring) : bool := HasPrefix name ".".




Definition exampleCorpus : FsNode :=
  Dir "docs"
    [ File ".draft.md";
      Dir ".git" [File "notes.md"];
      File "README.md";
      Dir "guide" [File "intro.MD"; File "logo.png"] ].

(** ** Navigation trees *)

Definition entry (relPath name : gostring) : FileEntry.t :=
  {| FileEntry.RelPath := relPath; FileEntry.Name := name |}.

Definition directory (name : gostring) (children : list TreeNode.t)
  : TreeNode.t :=
  TreeNode.mk name [] true children.

Definition document (name route : gostring) : TreeNode.t :=
  TreeNode.mk name route false [].

(** The step of [sortTree] on a child, after the children were sorted. *)
Definition sortChild (child : TreeNode.t) : TreeNode.t :=
  if TreeNode.IsDir child then sortTree child else child.

(** A document node has a route that begins with a slash. *)
Definition routeRooted (n : TreeNode.t) : Prop :=
  TreeNode.IsDir n = false -> HasPrefix (TreeNode.Path n) "/" = true.

Definition allRooted (n : TreeNode.t) : Prop :=
  Forall routeRooted (TreeNode.nodes n).

(** The three entries of the example of the sort rule. *)
Definition exampleEntries : list FileEntry.t :=
  [entry "a.md" "a"; entry "b/c.md" "c"; entry "b/a.md" "a"].

End Properties.

(* ================================================================== *)
(** * Notions for the further properties *)
(* ================================================================== *)

Module PathNotions.
Import GoStrings GoStringsMore GoPath.

(** A file or directory name: not empty, not the dot, not the double
    dot, and without separator. *)
Definition isName (c : gostring) : bool :=
  negb (gostring_eqb c []) && negb (gostring_eqb c ".")
  && negb (gostring_eqb c dotdot) && negb (existsb (Ascii.eqb slash) c).

(** The elements that [Clean] keeps when it meets no double dot. *)
Definition isKept (c : gostring) : bool :=
  negb (gostring_eqb c []) && negb (gostring_eqb c ".").

(** The elements of a path after [Clean] went through them. *)
Definition cleanElements (rooted : bool) (comps : list gostring)
  : list gostring :=
  rev (fold_left (cleanStep rooted) comps []).

(** An absolute path made of the given names. *)
Definition absolute (names : list gostring) : gostring :=
  "/" ++ Join names "/".


(** The extension of a document file whose name is [stem ++ ext], when
    stripping the two spellings one after the other gives back [stem]. *)
Definition strippable (stem ext : gostring) : Prop :=
  (ext = list_ascii_of_string ".md" /\ HasSuffix stem ".MD" = false)
  \/ ext = list_ascii_of_string ".MD".

End PathNotions.

Module EscapeNotions.

(** What one byte of a name becomes in the output of [escapeHTML]. *)
Definition escapeByte (c : ascii) : gostring :=
  if Ascii.eqb c "&" then "&amp;"
  else if Ascii.eqb c "<" then "&lt;"
  else if Ascii.eqb c ">" then "&gt;"
  else if Ascii.eqb c dq then "&quot;"
  else [c].

End EscapeNotions.

Module SortNotions.

Section Orders.
Context {A : Type} (less : A -> A -> bool).

(** [b] may come after [a] in a slice sorted by [less]. *)
Definition forth (a b : A) : Prop := less b a = false.

(** The same for the sorted prefix that the sort holds last element
    first. *)
Definition back (a b : A) : Prop := less a b = false.
End Orders.

End SortNotions.

Module ScanNotions.
Import GoStrings GoPath GoFS Scanner.

(** The names of the files that the scan lists. *)
Definition eligibleName (name : gostring) : bool :=
  negb (HasPrefix name ".") && HasSuffix (ToLower name) ".md".

(** The files that the scan lists at a node or below it, in the order of
    the walk: for each, its location relative to the node and its
    name. *)
Fixpoint eligibleBelow (node : FsNode) : list (location * gostring) :=
  match node with
  | File name => if eligibleName name then [([], name)] else []
  | Dir name entries =>
      if HasPrefix name "." then []
      else
        flat_map
          (fun child =>
             map (fun found => (nodeName child :: fst found, snd found))
               (eligibleBelow child))
          entries
  | DirUnreadable _ | Broken _ => []
  end.

(** The first failure that the walk meets at the node or below it: a
    node that cannot be examined or a directory that cannot be listed,
    outside of the directories that are skipped. *)
Definition firstFault (fault : location -> FsNode -> option fsError)
  (path : location) : list FsNode -> option fsError :=
  fix first (entries : list FsNode) : option fsError :=
    match entries with
    | [] => None
    | child :: entries' =>
        match fault (path ++ [nodeName child]) child with
        | Some e => Some e
        | None => first entries'
        end
    end.

Fixpoint fault (path : location) (node : FsNode) : option fsError :=
  match node with
  | File _ => None
  | Dir name entries =>
      if HasPrefix name "." then None else firstFault fault path entries
  | DirUnreadable _ => Some (ReadDirError path)
  | Broken _ => Some (LstatError path)
  end.

(** The entry of a file found at a location. *)
Definition entryAt (path : location) (found : location * gostring)
  : FileEntry.t :=
  {| FileEntry.RelPath := Rel (path ++ fst found);
     FileEntry.Name := TrimSuffix (snd found) (Ext (snd found)) |}.

(** The order of the entries of [ScanDirectory]. *)
Definition lessEntry (a b : FileEntry.t) : bool :=
  ltb (FileEntry.RelPath a) (FileEntry.RelPath b).

(** What one call of [walk] does, for the scanner. *)
Definition walked (node : FsNode) : Prop :=
  forall (path : location) (st : list FileEntry.t),
    match fault path node with
    | Some e => exists st', walk scanFn path node st = (st', Failure e)
    | None =>
        exists err,
          walk scanFn path node st
          = (st ++ map (entryAt path) (eligibleBelow node), err)
          /\ (err = NoError \/ (err = SkipDir /\ isDirNode node = true))
    end.

End ScanNotions.

Module TreeNotions.
Import GoStrings GoFS Scanner.

(** The nodes whose children [sortTree] puts in order: the node it is
    called on and, below it, the directories that directories lead
    to. *)
Fixpoint reached (n : TreeNode.t) : list TreeNode.t :=
  match n with
  | TreeNode.mk _ _ _ children =>
      n :: flat_map
             (fun child =>
                if TreeNode.IsDir child then reached child else [])
             children
  end.

(** The route that [insertNode] gives to the document of an entry. *)
Definition routeOf (e : FileEntry.t) : gostring :=
  "/" ++ ToSlash (TrimSuffix (TrimSuffix (FileEntry.RelPath e) ".md") ".MD").

(** The final part of the relative path of an entry. *)
Definition finalPart (e : FileEntry.t) : gostring :=
  last (Split (ToSlash (FileEntry.RelPath e)) "/") [].

(** A directory node has no route; a document node has the route of
    one of the entries and is named by the final part of its path. *)
Definition fromEntries (entries : list FileEntry.t) (n : TreeNode.t)
  : Prop :=
  if TreeNode.IsDir n then TreeNode.Path n = []
  else
    exists e,
      In e entries
      /\ TreeNode.Path n = routeOf e
      /\ TreeNode.Name n = finalPart e.

(** The children of a node have different names. *)
Definition siblingsDistinct (n : TreeNode.t) : Prop :=
  NoDup (map TreeNode.Name (TreeNode.Children n)).

End TreeNotions.

(* ================================================================== *)
(** * Facts about the library models *)
(* ================================================================== *)

Module GoStringsFacts.
Import GoStrings.

Lemma gostring_eqb_eq (a b : gostring) : gostring_eqb a b = true <-> a = b.
Proof.
  unfold gostring_eqb. destruct (list_eq_dec ascii_dec a b); split; congruence.
Qed.

Lemma gostring_eqb_refl (a : gostring) : gostring_eqb a a = true.
Proof. now apply gostring_eqb_eq. Qed.

Lemma gostring_eqb_neq (a b : gostring) : gostring_eqb a b = false <-> a <> b.
Proof.
  unfold gostring_eqb. destruct (list_eq_dec ascii_dec a b); split; congruence.
Qed.

Lemma HasPrefix_app (p r : gostring) : HasPrefix (p ++ r) p = true.
Proof.
  induction p as [|x p IH]; simpl; [reflexivity|].
  now rewrite Ascii.eqb_refl, IH.
Qed.

Lemma HasPrefix_inv (s p : gostring) :
  HasPrefix s p = true -> exists r, s = p ++ r.
Proof.
  revert s. induction p as [|x p IH]; intros s H; simpl in *.
  - now exists s.
  - destruct s as [|c s]; [discriminate|].
    apply andb_true_iff in H as [Hc Hs]. apply Ascii.eqb_eq in Hc. subst c.
    destruct (IH _ Hs) as [r ->]. now exists r.
Qed.

Lemma HasPrefix_byte (s : gostring) (q : ascii) :
  HasPrefix s [q] = match s with c :: _ => Ascii.eqb c q | [] => false end.
Proof. destruct s; simpl; [reflexivity|]. now rewrite andb_true_r. Qed.

(** ** [Cut] with a one-byte separator *)

Lemma Cut_byte_found (q : ascii) (a b : gostring) :
  ~ In q a -> Cut (a ++ q :: b) [q] = Some (a, b).
Proof.
  induction a as [|c a IH]; intros Hq.
  - simpl. now rewrite Ascii.eqb_refl.
  - cbn [app Cut]. rewrite HasPrefix_byte.
    destruct (Ascii.eqb_spec c q) as [->|_].
    + exfalso. apply Hq. now left.
    + rewrite IH; [reflexivity|]. intros Hin. apply Hq. now right.
Qed.

Lemma Cut_byte_None (q : ascii) (s : gostring) :
  ~ In q s -> Cut s [q] = None.
Proof.
  induction s as [|c s IH]; intros Hq; [reflexivity|].
  cbn [Cut]. rewrite HasPrefix_byte.
  destruct (Ascii.eqb_spec c q) as [->|_].
  - exfalso. apply Hq. now left.
  - rewrite IH; [reflexivity|]. intros Hin. apply Hq. now right.
Qed.

Lemma Cut_byte_inv (q : ascii) (s a b : gostring) :
  Cut s [q] = Some (a, b) -> s = a ++ q :: b /\ ~ In q a.
Proof.
  revert a. induction s as [|c s IH]; intros a H.
  - discriminate.
  - cbn [Cut] in H. rewrite HasPrefix_byte in H.
    destruct (Ascii.eqb_spec c q) as [->|Hne].
    + injection H as <- <-. split; [reflexivity | intros []].
    + destruct (Cut s [q]) as [[a' b']|] eqn:E; [|discriminate].
      injection H as <- <-. destruct (IH a' eq_refl) as [-> Hn].
      split; [reflexivity|]. intros [Hc|Hin]; [congruence | now apply Hn].
Qed.

Lemma Cut_byte_None_inv (q : ascii) (s : gostring) :
  Cut s [q] = None -> ~ In q s.
Proof.
  induction s as [|c s IH]; intros H; [intros []|].
  cbn [Cut] in H. rewrite HasPrefix_byte in H.
  destruct (Ascii.eqb_spec c q) as [->|Hne]; [discriminate|].
  destruct (Cut s [q]) as [[a' b']|] eqn:E; [discriminate|].
  intros [Hc|Hin]; [congruence | now apply IH].
Qed.

End GoStringsFacts.

Module GoRegexpFacts.
Import GoStrings GoRegexp GoStringsFacts.

Lemma stripPrefix_app (p r : gostring) : stripPrefix p (p ++ r) = Some r.
Proof.
  induction p as [|x p IH]; simpl; [reflexivity|].
  now rewrite Ascii.eqb_refl.
Qed.

Lemma stripPrefix_inv (p s r : gostring) :
  stripPrefix p s = Some r -> s = p ++ r.
Proof.
  revert s. induction p as [|x p IH]; intros s H; simpl in *.
  - congruence.
  - destruct s as [|c s]; [discriminate|].
    destruct (Ascii.eqb_spec c x) as [->|]; [|discriminate].
    now rewrite (IH _ H).
Qed.

Lemma stripPrefix_None_app (p s x : gostring) :
  stripPrefix p s = None -> length p <= length s ->
  stripPrefix p (s ++ x) = None.
Proof.
  revert s. induction p as [|c p IH]; intros s H Hlen; simpl in *.
  - discriminate.
  - destruct s as [|d s]; simpl in *; [lia|].
    destruct (Ascii.eqb d c); [|reflexivity].
    apply IH; [assumption | lia].
Qed.

(** A match is the opening literal, a target without quote that ends in
    one of the two extensions, and a quote. *)
Lemma matchAt_inv (s target rest : gostring) :
  matchAt s = Some (target, rest) ->
  s = matchText target ++ rest /\ ~ In dq target
  /\ endsInExtension target = true.
Proof.
  unfold matchAt, matchText. intros H.
  destruct (stripPrefix hrefOpen s) as [r|] eqn:Hp; [|discriminate].
  apply stripPrefix_inv in Hp. subst s.
  destruct (Cut r DQ) as [[t b]|] eqn:Hc; [|discriminate].
  destruct (endsInExtension t) eqn:He; [|discriminate].
  injection H as <- <-.
  apply Cut_byte_inv in Hc as [-> Hn].
  repeat split; try assumption.
  now rewrite <- !app_assoc.
Qed.

Lemma matchAt_intro (target rest : gostring) :
  ~ In dq target -> endsInExtension target = true ->
  matchAt (matchText target ++ rest) = Some (target, rest).
Proof.
  intros Hn He. unfold matchAt, matchText.
  rewrite <- app_assoc, stripPrefix_app, <- app_assoc.
  change (DQ ++ rest) with (dq :: rest).
  unfold DQ. fold dq. rewrite Cut_byte_found by assumption.
  now rewrite He.
Qed.

Lemma matchAt_app (s x target rest : gostring) :
  matchAt s = Some (target, rest) ->
  matchAt (s ++ x) = Some (target, rest ++ x).
Proof.
  intros H. apply matchAt_inv in H as (-> & Hn & He).
  rewrite <- app_assoc. now apply matchAt_intro.
Qed.

Lemma matchAt_length (s target rest : gostring) :
  matchAt s = Some (target, rest) -> length rest < length s.
Proof.
  intros H. apply matchAt_inv in H as (-> & _ & _).
  unfold matchText, hrefOpen. rewrite !length_app. simpl. lia.
Qed.

Lemma endsInExtension_href (r : gostring) :
  endsInExtension (r ++ "href=") = false.
Proof.
  unfold endsInExtension, HasSuffix. rewrite rev_app_distr. reflexivity.
Qed.

(** No match starts before a reference attribute and runs into it. *)
Lemma matchAt_before (pre target post : gostring) :
  pre <> [] -> matchAt pre = None ->
  matchAt (pre ++ matchText target ++ post) = None.
Proof.
  intros Hne H. unfold matchAt in *.
  destruct (stripPrefix hrefOpen pre) as [r|] eqn:Hp.
  - apply stripPrefix_inv in Hp. subst pre.
    rewrite <- app_assoc, stripPrefix_app.
    destruct (Cut r DQ) as [[t b]|] eqn:Hc.
    + apply Cut_byte_inv in Hc as [-> Hn].
      rewrite <- app_assoc. cbn [app].
      unfold DQ in *. fold dq in *. rewrite Cut_byte_found by assumption.
      destruct (endsInExtension t); [discriminate | reflexivity].
    + apply Cut_byte_None_inv in Hc.
      unfold matchText, hrefOpen. rewrite <- !app_assoc.
      replace (r ++ "href=" ++ DQ ++ target ++ DQ ++ post)
        with ((r ++ "href=") ++ dq :: target ++ DQ ++ post)
        by (now rewrite <- app_assoc).
      unfold DQ at 1. fold dq. rewrite Cut_byte_found.
      * now rewrite endsInExtension_href.
      * intros Hin. apply in_app_or in Hin as [Hin|Hin]; [now apply Hc|].
        cbn in Hin. unfold dq in Hin.
        repeat (destruct Hin as [Hin|Hin]; [discriminate|]). exact Hin.
  - destruct (Nat.le_gt_cases (length hrefOpen) (length pre)) as [Hl|Hl].
    + now rewrite stripPrefix_None_app.
    + clear H Hp. unfold matchText, hrefOpen in *. cbn in Hl.
      destruct pre as [|c1 pre]; [congruence|].
      repeat
        (cbn;
         match goal with
         | |- context [Ascii.eqb ?c ?x] =>
             destruct (Ascii.eqb_spec c x) as [->|_]; [|reflexivity]
         | _ => idtac
         end;
         try match goal with
           | p : list ascii |- _ =>
               match type of Hl with
               | context [p] => destruct p as [|? ?]
               end
           end; cbn in Hl; try lia; try reflexivity).
Qed.

(** ** The matcher and the pattern *)

Lemma HasSuffix_iff (s suffix : gostring) :
  HasSuffix s suffix = true <-> exists y, s = y ++ suffix.
Proof.
  unfold HasSuffix. split.
  - intros H. apply HasPrefix_inv in H as [r Hr]. exists (rev r).
    rewrite <- (rev_involutive s), Hr, rev_app_distr.
    now rewrite rev_involutive.
  - intros [y ->]. rewrite rev_app_distr. apply HasPrefix_app.
Qed.

Lemma Star_NotByte_inv (c : ascii) (y : gostring) (g : list gostring) :
  matches (Star (NotByte c)) y g -> ~ In c y /\ g = [].
Proof.
  intros H. remember (Star (NotByte c)) as r eqn:Hr.
  induction H as [| | |r0 s1 s2 g1 g2 H1 _ H2 IH2| | | |]; try discriminate.
  - split; [intros [] | reflexivity].
  - injection Hr as ->. destruct (IH2 eq_refl) as [Hn ->].
    split; [|reflexivity]. inversion H1; subst.
    intros [Hx|Hin]; [congruence | now apply Hn].
Qed.

Lemma Star_NotByte_intro (c : ascii) (y : gostring) :
  ~ In c y -> matches (Star (NotByte c)) y [].
Proof.
  induction y as [|x y IH]; intros Hn.
  - constructor.
  - change (x :: y) with ([x] ++ y).
    apply matches_Star_cons with (g1 := []).
    + constructor. intros ->. apply Hn. now left.
    + apply IH. intros Hin. apply Hn. now right.
Qed.

Lemma not_In_app_ext (y ext : gostring) :
  forallb (fun c => negb (Ascii.eqb c dq)) ext = true ->
  ~ In dq (y ++ ext) <-> ~ In dq y.
Proof.
  intros He. split; intros Hn Hin.
  - apply Hn. apply in_or_app. now left.
  - apply in_app_or in Hin as [Hin|Hin]; [now apply Hn|].
    rewrite forallb_forall in He. specialize (He _ Hin).
    now rewrite Ascii.eqb_refl in He.
Qed.

(** What [linkPattern] matches: the texts of [matchText], with the
    target as the one capture group. *)
Lemma linkPattern_matches (m : gostring) (g : list gostring) :
  matches linkPattern m g
  <-> exists target,
        m = matchText target /\ g = [target]
        /\ ~ In dq target /\ endsInExtension target = true.
Proof.
  unfold linkPattern, matchText. split.
  - intros H.
    inversion H as [| | | |? ? s1 s2 g1 g2 Hopen Hrest| | |]; subst; clear H.
    inversion Hopen; subst; clear Hopen.
    inversion Hrest as [| | | |? ? s3 s4 g3 g4 Hcap Hclose| | |]; subst;
      clear Hrest.
    inversion Hclose; subst; clear Hclose.
    inversion Hcap as [| | | | | | |? ? ? Hbody]; subst; clear Hcap.
    inversion Hbody as [| | | |? ? y s5 g5 g6 Hstar Hext| | |]; subst;
      clear Hbody.
    apply Star_NotByte_inv in Hstar as [Hn ->].
    inversion Hext as [| | | |? ? s6 s7 g7 g8 Hdot Halt| | |]; subst;
      clear Hext.
    inversion Hdot; subst; clear Hdot.
    exists (y ++ "." ++ s7). cbn [app]. repeat split.
    + inversion Halt as [| | | | |? ? ? ? Hl|? ? ? ? Hr|]; subst;
        [inversion Hl | inversion Hr]; reflexivity.
    + inversion Halt as [| | | | |? ? ? ? Hl|? ? ? ? Hr|]; subst;
        [inversion Hl | inversion Hr]; subst;
        apply not_In_app_ext; (reflexivity || assumption).
    + unfold endsInExtension.
      inversion Halt as [| | | | |? ? ? ? Hl|? ? ? ? Hr|]; subst;
        [inversion Hl | inversion Hr]; subst; apply orb_true_iff;
        [left | right]; apply HasSuffix_iff; now exists y.
  - intros (target & -> & -> & Hn & He).
    apply (matches_Concat _ _ hrefOpen (target ++ DQ) [] [target]);
      [constructor|].
    apply (matches_Concat _ _ target DQ [target] []); [|constructor].
    constructor.
    unfold endsInExtension in He. apply orb_true_iff in He.
    destruct He as [He|He]; apply HasSuffix_iff in He as [y ->].
    + apply (matches_Concat _ _ y ".md" [] []).
      * apply Star_NotByte_intro.
        apply (not_In_app_ext y ".md"); [reflexivity | assumption].
      * apply (matches_Concat _ _ "." "md" [] []); [constructor|].
        apply matches_Alternate_l. constructor.
    + apply (matches_Concat _ _ y ".MD" [] []).
      * apply Star_NotByte_intro.
        apply (not_In_app_ext y ".MD"); [reflexivity | assumption].
      * apply (matches_Concat _ _ "." "MD" [] []); [constructor|].
        apply matches_Alternate_r. constructor.
Qed.

(** [matchAt] finds the match of [linkPattern] that begins the text. *)
Lemma matchAt_linkPattern (s target rest : gostring) :
  matchAt s = Some (target, rest)
  <-> exists m, s = m ++ rest /\ matches linkPattern m [target].
Proof.
  split.
  - intros H. apply matchAt_inv in H as (-> & Hn & He).
    exists (matchText target). split; [reflexivity|].
    apply linkPattern_matches. now exists target.
  - intros (m & -> & Hm).
    apply linkPattern_matches in Hm as (t & -> & Ht & Hn & He).
    injection Ht as <-. now apply matchAt_intro.
Qed.

(** At a given start the pattern has at most one match, so that the
    preference among alternatives plays no part. *)
Lemma linkPattern_unique (m m' r r' : gostring) (g g' : list gostring) :
  matches linkPattern m g -> matches linkPattern m' g' ->
  m ++ r = m' ++ r' -> m = m' /\ g = g'.
Proof.
  intros Hm Hm' Heq.
  apply linkPattern_matches in Hm as (t & -> & -> & Hn & He).
  apply linkPattern_matches in Hm' as (t' & -> & -> & Hn' & He').
  pose proof (matchAt_intro t r Hn He) as H1.
  pose proof (matchAt_intro t' r' Hn' He') as H2.
  rewrite Heq, H2 in H1. injection H1 as -> _. now split.
Qed.

Lemma replaceFuel_enough (repl : gostring -> gostring) (n : nat) :
  forall (s : gostring),
    length s <= n -> replaceFuel n repl s = replaceFuel (length s) repl s.
Proof.
  induction n as [n IH] using lt_wf_ind. intros s Hn.
  destruct n as [|n].
  - destruct s; [reflexivity | simpl in Hn; lia].
  - cbn [replaceFuel].
    destruct s as [|c s].
    + reflexivity.
    + cbn [length replaceFuel]. cbn [length] in Hn.
      destruct (matchAt (c :: s)) as [[t rest]|] eqn:Hm.
      * apply matchAt_length in Hm. cbn [length] in Hm.
        rewrite (IH n) by lia.
        now rewrite (IH (length s)) by lia.
      * rewrite (IH n) by lia. reflexivity.
Qed.

Lemma ReplaceAllFunc_nil (repl : gostring -> gostring) :
  ReplaceAllFunc [] repl = [].
Proof. reflexivity. Qed.

Lemma ReplaceAllFunc_match (repl : gostring -> gostring)
  (s target rest : gostring) :
  matchAt s = Some (target, rest) ->
  ReplaceAllFunc s repl
  = repl (matchText target) ++ ReplaceAllFunc rest repl.
Proof.
  intros Hm. unfold ReplaceAllFunc.
  pose proof (matchAt_length _ _ _ Hm) as Hl.
  destruct (length s) as [|n] eqn:E; [lia|].
  cbn [replaceFuel]. rewrite Hm.
  now rewrite replaceFuel_enough by lia.
Qed.

Lemma ReplaceAllFunc_skip (repl : gostring -> gostring)
  (c : ascii) (s : gostring) :
  matchAt (c :: s) = None ->
  ReplaceAllFunc (c :: s) repl = c :: ReplaceAllFunc s repl.
Proof.
  intros Hm. unfold ReplaceAllFunc. cbn [length replaceFuel].
  now rewrite Hm.
Qed.

(** A reference attribute is replaced where it stands: the text before it
    and the text after it are rewritten on their own. *)
Lemma ReplaceAllFunc_attribute (repl : gostring -> gostring)
  (target post : gostring) :
  ~ In dq target -> endsInExtension target = true ->
  forall pre,
    ReplaceAllFunc (pre ++ matchText target ++ post) repl
    = ReplaceAllFunc pre repl ++ repl (matchText target)
        ++ ReplaceAllFunc post repl.
Proof.
  intros Hn He pre.
  remember (length pre) as n eqn:Hlen.
  revert pre Hlen. induction n as [n IH] using lt_wf_ind. intros pre Hlen.
  destruct pre as [|c pre].
  - cbn [app]. rewrite ReplaceAllFunc_nil. cbn [app].
    apply ReplaceAllFunc_match. now apply matchAt_intro.
  - destruct (matchAt (c :: pre)) as [[t rest]|] eqn:Hm.
    + rewrite (ReplaceAllFunc_match _ _ _ _ (matchAt_app _ _ _ _ Hm)).
      rewrite (ReplaceAllFunc_match _ _ _ _ Hm).
      apply matchAt_length in Hm.
      rewrite (IH (length rest)) by (subst n; auto).
      now rewrite <- app_assoc.
    + rewrite <- app_comm_cons.
      rewrite ReplaceAllFunc_skip.
      * rewrite ReplaceAllFunc_skip by assumption.
        rewrite <- app_comm_cons. f_equal.
        apply (IH (length pre)); [subst n; simpl; lia | reflexivity].
      * rewrite app_comm_cons. apply matchAt_before; [discriminate|assumption].
Qed.

(** A fragment without a match is left as it is. *)
Lemma ReplaceAllFunc_noMatch (repl : gostring -> gostring) (s : gostring) :
  noMatch s = true -> ReplaceAllFunc s repl = s.
Proof.
  induction s as [|c s IH]; intros H; [reflexivity|].
  cbn [noMatch] in H.
  destruct (matchAt (c :: s)) eqn:Hm; [discriminate|].
  rewrite ReplaceAllFunc_skip by assumption. now rewrite IH.
Qed.

End GoRegexpFacts.

Module GoStringsFacts2.
Import GoStrings GoStringsFacts.

(** ** [Cut] in general *)

Lemma skipn_length_app (p r : gostring) : skipn (length p) (p ++ r) = r.
Proof. induction p; simpl; auto. Qed.

Lemma HasPrefix_skipn (s sep : gostring) :
  HasPrefix s sep = true -> s = sep ++ skipn (length sep) s.
Proof.
  intros Hp. apply HasPrefix_inv in Hp as [r ->].
  now rewrite skipn_length_app.
Qed.

Lemma Cut_inv (s sep a b : gostring) :
  Cut s sep = Some (a, b) -> s = a ++ sep ++ b.
Proof.
  revert a. induction s as [|c s IH]; intros a H.
  - cbn [Cut] in H. destruct (HasPrefix [] sep) eqn:Hp; [|discriminate].
    injection H as <- <-. now apply HasPrefix_skipn.
  - cbn [Cut] in H. destruct (HasPrefix (c :: s) sep) eqn:Hp.
    + injection H as <- <-. now apply HasPrefix_skipn.
    + destruct (Cut s sep) as [[a' b']|] eqn:E; [|discriminate].
      injection H as <- <-. now rewrite (IH a' eq_refl).
Qed.

Lemma Cut_here (sep r : gostring) : Cut (sep ++ r) sep = Some ([], r).
Proof.
  destruct (sep ++ r) as [|c s] eqn:E; cbn [Cut]; rewrite <- E;
    now rewrite HasPrefix_app, skipn_length_app.
Qed.

(** Text without the first byte of the separator is stepped over. *)
Lemma Cut_skip (q : ascii) (sep' a s : gostring) :
  ~ In q a ->
  Cut (a ++ s) (q :: sep')
  = match Cut s (q :: sep') with
    | Some (b, r) => Some (a ++ b, r)
    | None => None
    end.
Proof.
  induction a as [|c a IH]; intros Hq.
  - cbn [app]. now destruct (Cut s (q :: sep')) as [[b r]|].
  - cbn [app Cut HasPrefix].
    destruct (Ascii.eqb_spec c q) as [->|_].
    + exfalso. apply Hq. now left.
    + cbn [andb]. rewrite IH by (intros Hin; apply Hq; now right).
      now destruct (Cut s (q :: sep')) as [[b r]|].
Qed.

(** ** Splitting joined text *)

Lemma splitFuel_Join (q : ascii) (comps : list gostring) :
  comps <> [] -> Forall (fun c => ~ In q c) comps ->
  forall fuel, length comps <= fuel ->
    splitFuel fuel (Join comps [q]) [q] = comps.
Proof.
  induction comps as [|c comps IH]; [congruence|].
  intros _ Hall fuel Hfuel.
  inversion Hall as [|? ? Hc Hrest]; subst.
  destruct fuel as [|fuel]; [simpl in Hfuel; lia|].
  destruct comps as [|c2 comps].
  - cbn [Join splitFuel]. now rewrite Cut_byte_None.
  - change (Join (c :: c2 :: comps) [q])
      with (c ++ q :: Join (c2 :: comps) [q]).
    cbn [splitFuel]. rewrite Cut_byte_found by assumption.
    f_equal. apply IH; [discriminate | assumption | simpl in *; lia].
Qed.

Lemma length_Join (comps : list gostring) (sep : gostring) :
  length sep = 1 -> length comps <= S (length (Join comps sep)).
Proof.
  intros Hsep. induction comps as [|c comps IH]; [simpl; lia|].
  destruct comps as [|c2 comps]; [simpl; lia|].
  change (Join (c :: c2 :: comps) sep)
    with (c ++ sep ++ Join (c2 :: comps) sep).
  rewrite !length_app, Hsep.
  change (length (c :: c2 :: comps)) with (S (length (c2 :: comps))).
  lia.
Qed.

Lemma Split_Join (q : ascii) (comps : list gostring) :
  comps <> [] -> Forall (fun c => ~ In q c) comps ->
  Split (Join comps [q]) [q] = comps.
Proof.
  intros Hne Hall. unfold Split.
  apply splitFuel_Join; try assumption.
  now apply length_Join.
Qed.

(** ** Trimming *)

Lemma trimFunc_eq (p : ascii -> bool) (s : gostring) :
  trimFunc p s = trimRight p (dropWhile p s).
Proof. reflexivity. Qed.

Lemma dropWhile_all (p : ascii -> bool) (s : gostring) :
  forallb p s = true -> dropWhile p s = [].
Proof.
  induction s as [|c s IH]; simpl; [reflexivity|].
  intros H. apply andb_true_iff in H as [Hc Hs]. now rewrite Hc, IH.
Qed.

Lemma dropWhile_stop (p : ascii -> bool) (a : gostring) (c : ascii)
  (b : gostring) :
  p c = false -> dropWhile p (a ++ c :: b) = dropWhile p a ++ c :: b.
Proof.
  intros Hc. induction a as [|x a IH]; simpl.
  - now rewrite Hc.
  - destruct (p x); [exact IH | reflexivity].
Qed.

Lemma dropWhile_split (p : ascii -> bool) (s : gostring) :
  (forallb p s = true /\ dropWhile p s = [])
  \/ (exists a c b, s = a ++ c :: b /\ forallb p a = true /\ p c = false
                    /\ dropWhile p s = c :: b).
Proof.
  induction s as [|x s IH]; simpl.
  - now left.
  - destruct (p x) eqn:Hx.
    + destruct IH as [[Hall Hd]|(a & c & b & -> & Ha & Hc & Hd)].
      * left. now rewrite Hall.
      * right. exists (x :: a), c, b. simpl. now rewrite Hx, Ha.
    + right. exists [], x, s. now repeat split.
Qed.

Lemma dropWhile_idem (p : ascii -> bool) (s : gostring) :
  dropWhile p (dropWhile p s) = dropWhile p s.
Proof.
  destruct (dropWhile_split p s) as [[_ ->]|(a & c & b & _ & _ & Hc & ->)].
  - reflexivity.
  - simpl. now rewrite Hc.
Qed.

Lemma trimRight_cons_stop (p : ascii -> bool) (c : ascii) (w : gostring) :
  p c = false -> trimRight p (c :: w) = c :: trimRight p w.
Proof.
  intros Hc. unfold trimRight. cbn [rev].
  change (rev w ++ [c]) with (rev w ++ c :: []).
  rewrite dropWhile_stop by assumption.
  now rewrite rev_app_distr.
Qed.

Lemma trimRight_idem (p : ascii -> bool) (s : gostring) :
  trimRight p (trimRight p s) = trimRight p s.
Proof.
  unfold trimRight. now rewrite rev_involutive, dropWhile_idem.
Qed.

Lemma forallb_rev (p : ascii -> bool) (s : gostring) :
  forallb p (rev s) = forallb p s.
Proof.
  induction s as [|c s IH]; simpl; [reflexivity|].
  rewrite forallb_app, IH. simpl. rewrite andb_true_r. apply andb_comm.
Qed.

Lemma trimRight_all (p : ascii -> bool) (s : gostring) :
  forallb p s = true -> trimRight p s = [].
Proof.
  intros H. unfold trimRight.
  now rewrite dropWhile_all by (now rewrite forallb_rev).
Qed.

Lemma trimRight_app_stop (p : ascii -> bool) (a : gostring) (c : ascii)
  (w : gostring) :
  p c = false -> trimRight p (a ++ c :: w) = a ++ c :: trimRight p w.
Proof.
  intros Hc. unfold trimRight.
  rewrite rev_app_distr. cbn [rev]. rewrite <- app_assoc. cbn [app].
  rewrite dropWhile_stop by assumption.
  rewrite rev_app_distr. cbn [rev]. rewrite rev_involutive.
  now rewrite <- app_assoc.
Qed.

(** Trimming the right end first does not change the trimmed text. *)
Lemma trimFunc_trimRight (p : ascii -> bool) (s : gostring) :
  trimFunc p (trimRight p s) = trimFunc p s.
Proof.
  rewrite !trimFunc_eq.
  destruct (dropWhile_split p s) as [[Hall ->]|(a & c & b & -> & Ha & Hc & ->)].
  - now rewrite (trimRight_all p s Hall).
  - rewrite trimRight_app_stop by assumption.
    rewrite dropWhile_stop by assumption.
    rewrite (dropWhile_all p a Ha). cbn [app].
    rewrite !trimRight_cons_stop by assumption.
    now rewrite trimRight_idem.
Qed.

(** A trailing byte of the trimmed kind does not change the trimmed
    text. *)
Lemma trimFunc_snoc (p : ascii -> bool) (s : gostring) (c : ascii) :
  p c = true -> trimFunc p (s ++ [c]) = trimFunc p s.
Proof.
  intros Hc. rewrite !trimFunc_eq.
  destruct (dropWhile_split p s) as [[Hall ->]|(a & x & b & -> & Ha & Hx & ->)].
  - rewrite dropWhile_all; [reflexivity|].
    rewrite forallb_app, Hall. simpl. now rewrite Hc.
  - rewrite <- app_assoc. cbn [app].
    rewrite dropWhile_stop by assumption.
    rewrite (dropWhile_all p a Ha). cbn [app].
    unfold trimRight. cbn [rev]. rewrite rev_app_distr.
    cbn [rev app dropWhile]. rewrite Hc. reflexivity.
Qed.

(** Text that begins and ends with bytes that are kept: only what
    follows it is trimmed. *)
Lemma trimFunc_keep (p : ascii -> bool) (c : ascii) (k : gostring)
  (d : ascii) (w : gostring) :
  p c = false -> p d = false ->
  trimFunc p ((c :: k ++ [d]) ++ w) = (c :: k ++ [d]) ++ trimRight p w.
Proof.
  intros Hc Hd. rewrite trimFunc_eq.
  cbn [app dropWhile]. rewrite Hc.
  rewrite trimRight_cons_stop by assumption.
  rewrite <- !app_assoc. cbn [app].
  now rewrite trimRight_app_stop.
Qed.

End GoStringsFacts2.

(* ================================================================== *)
(** * [RewriteLinks] *)
(* ================================================================== *)

Module RewriteLinksSpec.
Import GoStrings GoPath GoRegexp Renderer Properties.
Import GoStringsFacts GoRegexpFacts.

Lemma FindSubmatch_matchText (target : gostring) :
  ~ In dq target -> endsInExtension target = true ->
  FindSubmatch (matchText target) = Some target.
Proof.
  intros Hn He.
  pose proof (matchAt_intro target [] Hn He) as Hm.
  rewrite app_nil_r in Hm.
  unfold matchText in *. unfold hrefOpen in *. cbn [app list_ascii_of_string] in *.
  cbn [FindSubmatch]. now rewrite Hm.
Qed.

Lemma rewriteMatch_matchText (currentDir target : gostring) :
  ~ In dq target -> endsInExtension target = true ->
  rewriteMatch currentDir (matchText target)
  = if isExternal target then matchText target
    else hrefOpen ++ route target currentDir ++ DQ.
Proof.
  intros Hn He. unfold rewriteMatch.
  now rewrite FindSubmatch_matchText.
Qed.

Lemma route_rooted (linkPath currentDir : gostring) :
  HasPrefix (route linkPath currentDir) "/" = true.
Proof.
  unfold route.
  destruct (HasPrefix (TrimSuffix (TrimSuffix _ _) _) "/") eqn:E.
  - exact E.
  - reflexivity.
Qed.

Lemma RewriteLinks_attribute (pre target post currentDir : gostring) :
  ~ In dq target -> endsInExtension target = true ->
  RewriteLinks (pre ++ matchText target ++ post) currentDir
  = RewriteLinks pre currentDir
      ++ (if isExternal target then matchText target
          else hrefOpen ++ route target currentDir ++ DQ)
      ++ RewriteLinks post currentDir.
Proof.
  intros Hn He. unfold RewriteLinks.
  rewrite ReplaceAllFunc_attribute by assumption.
  now rewrite rewriteMatch_matchText.
Qed.

Lemma RewriteLinks_noMatch (s currentDir : gostring) :
  noMatch s = true -> RewriteLinks s currentDir = s.
Proof. apply ReplaceAllFunc_noMatch. Qed.

Lemma not_In_dq (s : gostring) :
  forallb (fun c => negb (Ascii.eqb c dq)) s = true -> ~ In dq s.
Proof.
  intros H Hin. rewrite forallb_forall in H. specialize (H _ Hin).
  now rewrite Ascii.eqb_refl in H.
Qed.

(** C1, as stated: the rewriting of the reference to [../README.md] from
    the directory [docs/sub] is not the reference to [/README]. *)
Lemma C1_parent_reference_counterexample :
  RewriteLinks ("href=" ++ DQ ++ "../README.md" ++ DQ) "docs/sub"
  <> "href=" ++ DQ ++ "/README" ++ DQ.
Proof. vm_compute. discriminate. Qed.

(** C1, amended: rewriting the reference to [../README.md] with current
    directory [docs/sub] yields the reference to [/docs/README]: the
    target is joined onto the directory, the [..] segment removes [sub],
    the extension is stripped and a leading slash is attached. *)
Theorem C1_parent_reference :
  RewriteLinks ("href=" ++ DQ ++ "../README.md" ++ DQ) "docs/sub"
  = "href=" ++ DQ ++ "/docs/README" ++ DQ.
Proof. vm_compute. reflexivity. Qed.

(** C2, as stated: the target [guide.Md] ends in the extension when
    compared case-insensitively and has no scheme, and the reference to
    it is left as it is. *)
Lemma C2_mixed_case_counterexample :
  HasSuffix (ToLower "guide.Md") ".md" = true
  /\ isExternal "guide.Md" = false
  /\ RewriteLinks ("<a href=" ++ DQ ++ "guide.Md" ++ DQ ++ ">") "docs"
     = "<a href=" ++ DQ ++ "guide.Md" ++ DQ ++ ">".
Proof. vm_compute. repeat split. Qed.

(** C2, amended: in every fragment and for every current directory, a
    reference attribute whose quoted target ends in [.md] or in [.MD]
    and does not begin with [http://] or [https://] is replaced, where it
    stands, by the reference to the route of the target, which begins
    with a slash; the text before and after it is rewritten on its own.
    A quoted target that ends in neither spelling is not matched. *)
Theorem C2_rewrites_md_and_MD_references :
  forall (pre target post currentDir : gostring),
    ~ In dq target ->
    (endsInExtension target = true ->
     isExternal target = false ->
     RewriteLinks (pre ++ matchText target ++ post) currentDir
     = RewriteLinks pre currentDir
         ++ hrefOpen ++ route target currentDir ++ DQ
         ++ RewriteLinks post currentDir
     /\ HasPrefix (route target currentDir) "/" = true)
    /\ (endsInExtension target = false ->
        matchAt (matchText target ++ post) = None).
Proof.
  intros pre target post dir Hn. split.
  - intros He Hx. split; [|apply route_rooted].
    rewrite RewriteLinks_attribute by assumption.
    rewrite Hx. now rewrite <- !app_assoc.
  - intros He. unfold matchAt, matchText.
    rewrite <- app_assoc, stripPrefix_app, <- app_assoc.
    change (DQ ++ post) with (dq :: post).
    unfold DQ. rewrite Cut_byte_found by assumption.
    now rewrite He.
Qed.

Lemma C2_rewrites_md_and_MD_references_witness :
  RewriteLinks ("<a " ++ matchText "Guide.MD" ++ ">") "docs"
  = RewriteLinks "<a " "docs"
      ++ hrefOpen ++ route "Guide.MD" "docs" ++ DQ
      ++ RewriteLinks ">" "docs"
  /\ HasPrefix (route "Guide.MD" "docs") "/" = true.
Proof.
  apply (C2_rewrites_md_and_MD_references "<a " "Guide.MD" ">" "docs").
  - apply not_In_dq. reflexivity.
  - reflexivity.
  - reflexivity.
Defined.

(** C8, as stated: a target that begins with another scheme prefix, or
    with the prefix in upper case, is not kept.  In a fragment that
    holds the two references of the claim and after them a reference to
    [ftp://host/x.md] and one to [HTTPS://example.com/page.md], the last
    two are rewritten like relative references. *)
Lemma C8_other_scheme_counterexample :
  RewriteLinks
    (refExternalMd ++ refHttps ++ matchText "ftp://host/x.md"
       ++ matchText "HTTPS://example.com/page.md") "docs"
  = matchText "/docs/external" ++ refHttps
      ++ matchText "/docs/ftp:/host/x"
      ++ matchText "/docs/HTTPS:/example.com/page"
  /\ matchText "/docs/ftp:/host/x" <> matchText "ftp://host/x.md"
  /\ matchText "/docs/HTTPS:/example.com/page"
     <> matchText "HTTPS://example.com/page.md".
Proof. vm_compute. repeat split; discriminate. Qed.

(** C8, amended: in a fragment that holds the reference to [external.md] and the
    reference to [https://example.com/page.md], in either order, the
    former is replaced by the reference to its route, which differs from
    it, and the latter is kept; every reference whose target begins with
    [http://] or [https://] is kept byte for byte; the text around a
    reference is rewritten on its own, and text in which the pattern
    matches nowhere is left unchanged. *)
Theorem C8_only_internal_references_change :
  (forall (a b c currentDir : gostring),
      RewriteLinks (a ++ refExternalMd ++ b ++ refHttps ++ c) currentDir
      = RewriteLinks a currentDir
          ++ (hrefOpen ++ route "external.md" currentDir ++ DQ)
          ++ RewriteLinks b currentDir ++ refHttps
          ++ RewriteLinks c currentDir
      /\ RewriteLinks (a ++ refHttps ++ b ++ refExternalMd ++ c) currentDir
         = RewriteLinks a currentDir ++ refHttps
             ++ RewriteLinks b currentDir
             ++ (hrefOpen ++ route "external.md" currentDir ++ DQ)
             ++ RewriteLinks c currentDir
      /\ hrefOpen ++ route "external.md" currentDir ++ DQ <> refExternalMd)
  /\ (forall (pre target post currentDir : gostring),
         ~ In dq target -> endsInExtension target = true ->
         isExternal target = true ->
         RewriteLinks (pre ++ matchText target ++ post) currentDir
         = RewriteLinks pre currentDir ++ matchText target
             ++ RewriteLinks post currentDir)
  /\ (forall (s currentDir : gostring),
         noMatch s = true -> RewriteLinks s currentDir = s).
Proof.
  assert (Hext : ~ In dq "external.md") by (apply not_In_dq; reflexivity).
  assert (Hweb : ~ In dq "https://example.com/page.md")
    by (apply not_In_dq; reflexivity).
  split; [|split].
  - intros a b c dir. unfold refExternalMd, refHttps. repeat split.
    + rewrite RewriteLinks_attribute by (assumption || reflexivity).
      rewrite RewriteLinks_attribute by (assumption || reflexivity).
      reflexivity.
    + rewrite RewriteLinks_attribute by (assumption || reflexivity).
      rewrite RewriteLinks_attribute by (assumption || reflexivity).
      reflexivity.
    + intros H. unfold matchText in H. apply app_inv_head in H.
      pose proof (route_rooted "external.md" dir) as Hr.
      destruct (route "external.md" dir) as [|x r]; [discriminate|].
      cbn in Hr. apply andb_true_iff in Hr as [Hx _].
      apply Ascii.eqb_eq in Hx. subst x. discriminate.
  - intros pre target post dir Hn He Hx.
    rewrite RewriteLinks_attribute by assumption. now rewrite Hx.
  - intros s dir. apply RewriteLinks_noMatch.
Qed.

Lemma C8_only_internal_references_change_witness :
  RewriteLinks
    ("<a " ++ matchText "http://example.com/a.MD" ++ ">x</a>") "docs"
  = "<a " ++ matchText "http://example.com/a.MD" ++ ">x</a>"
  /\ RewriteLinks "<p>href=none</p>" "docs" = "<p>href=none</p>".
Proof.
  destruct C8_only_internal_references_change as (_ & Hkeep & Hframe).
  split.
  - rewrite (Hkeep "<a " "http://example.com/a.MD" ">x</a>" "docs").
    + rewrite !Hframe by reflexivity. reflexivity.
    + apply not_In_dq. reflexivity.
    + reflexivity.
    + reflexivity.
  - apply Hframe. reflexivity.
Defined.

End RewriteLinksSpec.

(* ================================================================== *)
(** * [sort.Slice]: the result is a rearrangement *)
(* ================================================================== *)

Module GoSortFacts.
Import GoSort.

Section Facts.
Context {A : Type} (less : A -> A -> bool).

Lemma In_insertBack (x y : A) (l : list A) :
  In y (insertBack less x l) <-> y = x \/ In y l.
Proof.
  induction l as [|z l IH]; simpl.
  - intuition congruence.
  - destruct (less x z); simpl; rewrite ?IH; intuition congruence.
Qed.

Lemma In_fold_insertBack (y : A) (l acc : list A) :
  In y (fold_left (fun sortedRev e => insertBack less e sortedRev) l acc)
  <-> In y l \/ In y acc.
Proof.
  revert acc. induction l as [|x l IH]; intros acc; simpl.
  - intuition.
  - rewrite IH, In_insertBack. intuition congruence.
Qed.

Lemma In_Slice (y : A) (l : list A) : In y (Slice less l) <-> In y l.
Proof.
  unfold Slice. rewrite <- in_rev, In_fold_insertBack. simpl. intuition.
Qed.
End Facts.

(** Sorting commutes with a map that the comparison does not see. *)
Section Map.
Context {A : Type} (less : A -> A -> bool) (f : A -> A).
Hypothesis less_f : forall x y, less (f x) (f y) = less x y.

Lemma insertBack_map (x : A) (l : list A) :
  insertBack less (f x) (map f l) = map f (insertBack less x l).
Proof.
  induction l as [|y l IH]; simpl; [reflexivity|].
  rewrite less_f. destruct (less x y); simpl; [now rewrite IH | reflexivity].
Qed.

Lemma fold_insertBack_map (l acc : list A) :
  fold_left (fun sortedRev e => insertBack less e sortedRev)
    (map f l) (map f acc)
  = map f (fold_left (fun sortedRev e => insertBack less e sortedRev)
             l acc).
Proof.
  revert acc. induction l as [|x l IH]; intros acc; simpl; [reflexivity|].
  now rewrite insertBack_map, IH.
Qed.

Lemma Slice_map (l : list A) :
  Slice less (map f l) = map f (Slice less l).
Proof.
  unfold Slice. rewrite map_rev. f_equal.
  exact (fold_insertBack_map l []).
Qed.
End Map.

End GoSortFacts.

(* ================================================================== *)
(** * [ScanDirectory] *)
(* ================================================================== *)

Module ScanDirectorySpec.
Import GoStrings GoPath GoSort GoFS Scanner Properties.
Import GoStringsFacts GoStringsFacts2 GoSortFacts.



(** ** The invariant of the walk *)



Lemma walk_Dir (path : location) (name : gostring) (entries : list FsNode)
  (st : list FileEntry.t) :
  walk scanFn path (Dir name entries) st
  = if hidden name then (st, SkipDir)
    else walkEntries scanFn path entries st.
Proof.
  cbn [walk scanFn lstat GoFS.Name GoFS.IsDir nodeName isDirNode].
  unfold hidden. destruct (HasPrefix name "."); reflexivity.
Qed.





(** C10, as stated: a root directory with a hidden name whose listing
    cannot be read makes the scan fail with the error of the listing. *)
Lemma C10_unreadable_root_counterexample :
  isDirNode (DirUnreadable ".docs") = true
  /\ HasPrefix (nodeName (DirUnreadable ".docs")) "." = true
  /\ ScanDirectory (DirUnreadable ".docs") = Error (ReadDirError [])
  /\ ScanDirectory (DirUnreadable ".docs") <> Ok [].
Proof. repeat split. discriminate. Qed.

(** C10, amended: when the root directory can be listed and its base
    name begins with a dot, the scan returns the empty entry list and no
    error, whatever the directory holds: the test for hidden names is
    applied to the root of the walk too. *)
Theorem C10_hidden_root_is_pruned :
  forall (name : gostring) (entries : list FsNode),
    HasPrefix name "." = true ->
    ScanDirectory (Dir name entries) = Ok [].
Proof.
  intros name entries Hhid. unfold ScanDirectory, Walk.
  rewrite walk_Dir. unfold hidden. rewrite Hhid. reflexivity.
Qed.

Lemma C10_hidden_root_is_pruned_witness :
  ScanDirectory (Dir ".docs" [File "README.md"; Dir "guide" [File "a.md"]])
  = Ok [].
Proof. apply C10_hidden_root_is_pruned. reflexivity. Defined.

End ScanDirectorySpec.

(* ================================================================== *)
(** * [BuildTree], [sortTree] and [RenderTree] *)
(* ================================================================== *)

Module TreeSpec.
Import GoStrings GoPath GoSort GoFS Scanner Properties.
Import GoStringsFacts GoSortFacts.

Lemma sortTree_Name (node : TreeNode.t) :
  TreeNode.Name (sortTree node) = TreeNode.Name node.
Proof. now destruct node. Qed.

Lemma sortTree_IsDir (node : TreeNode.t) :
  TreeNode.IsDir (sortTree node) = TreeNode.IsDir node.
Proof. now destruct node. Qed.

Lemma lessNode_sortChild (a b : TreeNode.t) :
  lessNode (sortChild a) (sortChild b) = lessNode a b.
Proof.
  unfold lessNode, sortChild.
  destruct (TreeNode.IsDir a) eqn:Ea, (TreeNode.IsDir b) eqn:Eb;
    rewrite ?sortTree_Name, ?sortTree_IsDir, ?Ea, ?Eb; reflexivity.
Qed.

(** [sortTree] in the order of the Go code: the children are sorted
    first, then every directory among the sorted children is sorted. *)
Lemma sortTree_eq (name path : gostring) (isDir : bool)
  (children : list TreeNode.t) :
  sortTree (TreeNode.mk name path isDir children)
  = TreeNode.mk name path isDir
      (map sortChild (Slice lessNode children)).
Proof.
  cbn [sortTree]. f_equal.
  exact (Slice_map lessNode sortChild lessNode_sortChild children).
Qed.

(** ** Every document of a built tree has a route that begins with a
    slash *)

Lemma In_nodes (d : TreeNode.t) (name path : gostring) (isDir : bool)
  (children : list TreeNode.t) :
  In d (TreeNode.nodes (TreeNode.mk name path isDir children))
  <-> d = TreeNode.mk name path isDir children
      \/ exists c, In c children /\ In d (TreeNode.nodes c).
Proof.
  cbn [TreeNode.nodes In]. rewrite in_flat_map. intuition.
Qed.

Lemma allRooted_mk (name path : gostring) (isDir : bool)
  (children : list TreeNode.t) :
  allRooted (TreeNode.mk name path isDir children)
  <-> routeRooted (TreeNode.mk name path isDir children)
      /\ Forall allRooted children.
Proof.
  unfold allRooted. rewrite !Forall_forall. split.
  - intros H. split.
    + apply H. apply In_nodes. now left.
    + intros c Hc. apply Forall_forall. intros d Hd.
      apply H. apply In_nodes. right. now exists c.
  - intros [Hn Hcs] d Hd. apply In_nodes in Hd as [->|(c & Hc & Hd)].
    + exact Hn.
    + specialize (Hcs c Hc). rewrite Forall_forall in Hcs. now apply Hcs.
Qed.

Lemma allRooted_setChildren (n : TreeNode.t) (cs : list TreeNode.t) :
  allRooted n -> Forall allRooted cs ->
  allRooted (TreeNode.setChildren n cs).
Proof.
  destruct n as [name path isDir children]. intros Hn Hcs.
  apply allRooted_mk in Hn as [Hn _].
  unfold TreeNode.setChildren. cbn. apply allRooted_mk. now split.
Qed.

Lemma allRooted_Children (n : TreeNode.t) :
  allRooted n -> Forall allRooted (TreeNode.Children n).
Proof.
  destruct n as [name path isDir children]. intros Hn.
  now apply allRooted_mk in Hn as [_ Hcs].
Qed.

Lemma Forall_updateAt (Q : TreeNode.t -> Prop) (f : TreeNode.t -> TreeNode.t)
  (i : nat) (cs : list TreeNode.t) :
  (forall c, Q c -> Q (f c)) -> Forall Q cs -> Forall Q (updateAt i f cs).
Proof.
  intros Hf. revert i. induction cs as [|c cs IH]; intros i Hcs.
  - destruct i; constructor.
  - inversion Hcs; subst. destruct i; cbn [updateAt]; constructor; auto.
Qed.

Lemma insertNode_allRooted (parts : list gostring) (e : FileEntry.t) :
  forall parent, allRooted parent -> allRooted (insertNode parent parts e).
Proof.
  induction parts as [|part rest IH]; intros parent Hparent.
  - exact Hparent.
  - cbn [insertNode].
    set (recurse := fun child : TreeNode.t =>
                      if 1 <? length (part :: rest)
                      then insertNode child rest e else child).
    assert (forall c, allRooted c -> allRooted (recurse c)) as Hrec.
    { intros c Hc. unfold recurse.
      destruct (1 <? length (part :: rest)); auto. }
    destruct (findChild (TreeNode.Children parent) part) as [i|].
    + apply allRooted_setChildren; [assumption|].
      apply Forall_updateAt; [assumption|].
      now apply allRooted_Children.
    + apply allRooted_setChildren; [assumption|].
      apply Forall_app. split; [now apply allRooted_Children|].
      constructor; [|constructor]. apply Hrec.
      apply allRooted_mk. split; [|constructor].
      unfold routeRooted. cbn [TreeNode.IsDir TreeNode.Path].
      intros HisFile. apply negb_false_iff in HisFile.
      rewrite HisFile. reflexivity.
Qed.

Lemma sortTree_allRooted (n : TreeNode.t) :
  allRooted n -> allRooted (sortTree n).
Proof.
  induction n as [name path isDir children IH] using TreeNode.nested_ind.
  intros Hn. apply allRooted_mk in Hn as [Hn Hcs].
  cbn [sortTree]. apply allRooted_mk. split; [exact Hn|].
  apply Forall_forall. intros c Hc. apply In_Slice in Hc.
  apply in_map_iff in Hc as (c0 & <- & Hc0).
  rewrite Forall_forall in IH, Hcs.
  destruct (TreeNode.IsDir c0); auto.
Qed.

(** In the tree built from any list of entries, the route of every
    document node begins with a slash. *)
Lemma BuildTree_document_routes_rooted (entries : list FileEntry.t)
  (d : TreeNode.t) :
  In d (TreeNode.nodes (BuildTree entries)) ->
  TreeNode.IsDir d = false ->
  HasPrefix (TreeNode.Path d) "/" = true.
Proof.
  assert (allRooted (BuildTree entries)) as H.
  { unfold BuildTree. apply sortTree_allRooted.
    set (root := TreeNode.mk "root" [] true []).
    assert (allRooted root) as Hroot.
    { apply allRooted_mk. split; [discriminate | constructor]. }
    revert Hroot. generalize root.
    induction entries as [|e entries IHe]; intros r Hr; cbn [fold_left].
    - exact Hr.
    - apply IHe. now apply insertNode_allRooted. }
  intros Hd. unfold allRooted in H. rewrite Forall_forall in H.
  exact (H d Hd).
Qed.

(** ** [escapeHTML] leaves none of the bytes it replaces *)

Lemma In_ReplaceAllByte (x old : ascii) (new s : gostring) :
  In x (ReplaceAllByte s old new)
  <-> (In x s /\ x <> old) \/ (In old s /\ In x new).
Proof.
  unfold ReplaceAllByte. rewrite in_flat_map. split.
  - intros (c & Hc & Hx). destruct (Ascii.eqb_spec c old) as [->|Hne].
    + now right.
    + destruct Hx as [<-|[]]. now left.
  - intros [[Hx Hne]|[Hold Hx]].
    + exists x. split; [assumption|].
      destruct (Ascii.eqb_spec x old); [contradiction | now left].
    + exists old. split; [assumption|]. now rewrite Ascii.eqb_refl.
Qed.

(** The output of [escapeHTML] holds no angle bracket and no double
    quote. *)
Lemma escapeHTML_no_markup (s : gostring) :
  ~ In "<"%char (escapeHTML s) /\ ~ In ">"%char (escapeHTML s)
  /\ ~ In dq (escapeHTML s).
Proof.
  unfold escapeHTML, dq. repeat split; intros H;
    repeat (apply In_ReplaceAllByte in H as [[H ?]|[_ H]];
            [try congruence
            | cbn in H;
              repeat (destruct H as [H|H]; [discriminate|]); exact H]).
Qed.

(** C3, at the failing input: the scan of a directory that holds the file
    [guide.Md] yields the entry for it, and in the tree built from this
    entry the route of the document keeps the extension. *)
Theorem C3_mixed_case_route_keeps_extension :
  ScanDirectory (Dir "docs" [File "guide.Md"])
  = Ok [entry "guide.Md" "guide"]
  /\ BuildTree [entry "guide.Md" "guide"]
     = directory "root" [document "guide.Md" "/guide.Md"]
  /\ HasSuffix (ToLower "/guide.Md") ".md" = true.
Proof. vm_compute. repeat split. Qed.

(** C4, at the failing input: for a file whose name holds a double
    quote and the two angle brackets, the name is escaped in the text of
    the link and written as it is in the reference attribute. *)
Theorem C4_route_is_not_escaped :
  let name : gostring := "a" ++ DQ ++ "><b.md" in
  RenderTree (BuildTree [entry name ("a" ++ DQ ++ "><b")])
  = "<ul class=" ++ DQ ++ "file-tree" ++ DQ ++ ">" ++ LF
      ++ "<li><a href=" ++ DQ ++ "/a" ++ DQ ++ "><b" ++ DQ
      ++ " class=" ++ DQ ++ "file" ++ DQ ++ ">"
      ++ "a&quot;&gt;&lt;b.md" ++ "</a></li>" ++ LF
      ++ "</ul>" ++ LF.
Proof. vm_compute. reflexivity. Qed.

(** C7, as stated: the children of the root are not named [b] and [a]:
    the document node carries the file name with its extension. *)
Lemma C7_document_names_counterexample :
  map TreeNode.Name (TreeNode.Children (BuildTree exampleEntries))
  <> [ list_ascii_of_string "b"; list_ascii_of_string "a" ].
Proof. vm_compute. discriminate. Qed.

(** C7, amended: the tree built from the three entries has, below the
    root, the directory [b] and then the document [a.md] with route
    [/a]; the children of [b] are the document [a.md] with route [/b/a]
    and then the document [c.md] with route [/b/c]. *)
Theorem C7_directories_first_then_alphabetical :
  BuildTree exampleEntries
  = directory "root"
      [ directory "b" [document "a.md" "/b/a"; document "c.md" "/b/c"];
        document "a.md" "/a" ].
Proof. vm_compute. reflexivity. Qed.

End TreeSpec.

(* ================================================================== *)
(** * [ParseFrontmatter] *)
(* ================================================================== *)

Module ParseFrontmatterSpec.
Import GoStrings Renderer Properties.
Import GoStringsFacts GoStringsFacts2.

Lemma firstn_length_app (a b : gostring) : firstn (length a) (a ++ b) = a.
Proof. induction a; simpl; [now destruct b | now f_equal]. Qed.

Lemma skipn_add_app (n : nat) (a b : gostring) :
  skipn (length a + n) (a ++ b) = skipn n b.
Proof. induction a; simpl; auto. Qed.

(** After the opening line, the block runs up to the first occurrence of
    a line feed followed by three dashes; without one the content is
    returned as it is. *)
Lemma ParseFrontmatter_opened (opening rest : gostring) :
  opening = "---" ++ LF \/ opening = "---" ++ CR ++ LF ->
  ParseFrontmatter (opening ++ rest)
  = match Cut rest closing with
    | None => (noMetadata, opening ++ rest)
    | Some (fmBlock, after) =>
        (fold_left parseLine (Split fmBlock LF) noMetadata,
         skipTerminator after)
    end.
Proof.
  intros [-> | ->]; unfold ParseFrontmatter.
  - set (text := ("---" ++ LF) ++ rest).
    assert (HasPrefix text ("---" ++ LF) = true) as -> by reflexivity.
    assert (HasPrefix text ("---" ++ CR ++ LF) = false) as -> by reflexivity.
    cbn [negb andb].
    assert (sliceFrom text 4 = rest) as -> by reflexivity.
    unfold Index. fold closing.
    destruct (Cut rest closing) as [[fmBlock after]|] eqn:Hcut;
      [|reflexivity].
    apply Cut_inv in Hcut.
    assert ((Z.of_nat (length fmBlock) =? -1)%Z = false) as ->
        by (apply Z.eqb_neq; lia).
    cbn [negb].
    assert ((Z.of_nat (length fmBlock) + 4 =? -1)%Z = false) as ->
        by (apply Z.eqb_neq; lia).
    assert (slice text 4 (Z.of_nat (length fmBlock) + 4) = fmBlock) as ->.
    { unfold slice.
      replace (Z.to_nat (Z.of_nat (length fmBlock) + 4) - Z.to_nat 4)
        with (length fmBlock) by lia.
      change (skipn (Z.to_nat 4) text) with rest.
      rewrite Hcut. apply firstn_length_app. }
    assert (sliceFrom text (Z.of_nat (length fmBlock) + 4 + 4) = after) as ->.
    { unfold sliceFrom.
      replace (Z.to_nat (Z.of_nat (length fmBlock) + 4 + 4))
        with (4 + (length fmBlock + 4)) by lia.
      change (skipn (4 + ?k) text) with (skipn k rest).
      rewrite Hcut, skipn_add_app. reflexivity. }
    reflexivity.
  - set (text := ("---" ++ CR ++ LF) ++ rest).
    assert (HasPrefix text ("---" ++ LF) = false) as -> by reflexivity.
    assert (HasPrefix text ("---" ++ CR ++ LF) = true) as -> by reflexivity.
    cbn [negb andb].
    assert (sliceFrom text 5 = rest) as -> by reflexivity.
    unfold Index. fold closing.
    destruct (Cut rest closing) as [[fmBlock after]|] eqn:Hcut;
      [|reflexivity].
    apply Cut_inv in Hcut.
    assert ((Z.of_nat (length fmBlock) =? -1)%Z = false) as ->
        by (apply Z.eqb_neq; lia).
    cbn [negb].
    assert ((Z.of_nat (length fmBlock) + 5 =? -1)%Z = false) as ->
        by (apply Z.eqb_neq; lia).
    assert (slice text 5 (Z.of_nat (length fmBlock) + 5) = fmBlock) as ->.
    { unfold slice.
      replace (Z.to_nat (Z.of_nat (length fmBlock) + 5) - Z.to_nat 5)
        with (length fmBlock) by lia.
      change (skipn (Z.to_nat 5) text) with rest.
      rewrite Hcut. apply firstn_length_app. }
    assert (sliceFrom text (Z.of_nat (length fmBlock) + 5 + 4) = after) as ->.
    { unfold sliceFrom.
      replace (Z.to_nat (Z.of_nat (length fmBlock) + 5 + 4))
        with (5 + (length fmBlock + 4)) by lia.
      change (skipn (5 + ?k) text) with (skipn k rest).
      rewrite Hcut, skipn_add_app. reflexivity. }
    reflexivity.
Qed.

(** ** One line of the block *)

Lemma parseLine_pair (fm : Frontmatter) (c : ascii) (k value : gostring) :
  isSpace c = false ->
  ~ In ":"%char (c :: k) ->
  TrimSpace (c :: k) = c :: k ->
  parseLine fm ((c :: k ++ ":") ++ value)
  = let key := ToLower (c :: k) in
    let value := Trim (TrimSpace value) quotes in
    if gostring_eqb key "title"
    then {| Title := value; Author := Author fm |}
    else if gostring_eqb key "author"
    then {| Title := Title fm; Author := value |}
    else fm.
Proof.
  intros Hc Hcolon Hkey. unfold parseLine, TrimSpace in *.
  change (list_ascii_of_string ":") with [":"%char].
  rewrite trimFunc_keep by (assumption || reflexivity).
  destruct (gostring_eqb _ []) eqn:E at 1;
    [apply gostring_eqb_eq in E; discriminate|]. clear E.
  unfold SplitN2.
  replace ((c :: k ++ [":"%char]) ++ trimRight isSpace value)
    with ((c :: k) ++ ":"%char :: trimRight isSpace value)
    by (cbn [app]; now rewrite <- app_assoc).
  rewrite Cut_byte_found by assumption.
  rewrite Hkey, trimFunc_trimRight.
  reflexivity.
Qed.

Lemma parseLine_title (fm : Frontmatter) (value : gostring) :
  parseLine fm ("title:" ++ value)
  = {| Title := Trim (TrimSpace value) quotes; Author := Author fm |}.
Proof.
  change (list_ascii_of_string "title:" ++ value)
    with (("t"%char :: list_ascii_of_string "itle" ++ ":") ++ value).
  rewrite parseLine_pair; [reflexivity | reflexivity | | reflexivity].
  cbn. intros H. repeat (destruct H as [H|H]; [discriminate|]). exact H.
Qed.

Lemma parseLine_author (fm : Frontmatter) (value : gostring) :
  parseLine fm ("author:" ++ value)
  = {| Title := Title fm; Author := Trim (TrimSpace value) quotes |}.
Proof.
  change (list_ascii_of_string "author:" ++ value)
    with (("a"%char :: list_ascii_of_string "uthor" ++ ":") ++ value).
  rewrite parseLine_pair; [reflexivity | reflexivity | | reflexivity].
  cbn. intros H. repeat (destruct H as [H|H]; [discriminate|]). exact H.
Qed.

(** ** A block with a title line and an author line *)

Lemma not_In_lf_key (key value : gostring) :
  forallb (fun c => negb (Ascii.eqb c lf)) key = true ->
  ~ In lf value -> ~ In lf (key ++ value).
Proof.
  intros Hk Hv Hin. apply in_app_or in Hin as [Hin|Hin]; [|now apply Hv].
  rewrite forallb_forall in Hk. specialize (Hk _ Hin).
  now rewrite Ascii.eqb_refl in Hk.
Qed.

Lemma Cut_block (w1 w2 after : gostring) :
  ~ In lf w1 -> ~ In lf w2 ->
  Cut (Join ["title:" ++ w1; "author:" ++ w2] LF ++ closing ++ after)
    closing
  = Some (Join ["title:" ++ w1; "author:" ++ w2] LF, after).
Proof.
  intros H1 H2.
  assert (~ In lf ("title:" ++ w1)) as Ht
      by (apply not_In_lf_key; [reflexivity | assumption]).
  assert (~ In lf ("author:" ++ w2)) as Ha
      by (apply not_In_lf_key; [reflexivity | assumption]).
  assert (forall x,
             Cut (lf :: ("author:" ++ w2) ++ x) closing
             = match Cut (("author:" ++ w2) ++ x) closing with
               | Some (b, r) => Some (lf :: b, r)
               | None => None
               end) as Hstep by reflexivity.
  set (t1 := "title:" ++ w1) in *. set (t2 := "author:" ++ w2) in *.
  cbn [Join].
  replace ((t1 ++ LF ++ t2) ++ closing ++ after)
    with (t1 ++ lf :: t2 ++ closing ++ after)
    by (unfold LF; fold lf; now rewrite <- !app_assoc).
  unfold closing at 2. unfold LF at 1. fold lf. cbn [app].
  rewrite Cut_skip by assumption.
  fold (LF ++ "---"). fold closing.
  change (lf :: list_ascii_of_string "---") with closing.
  rewrite Hstep.
  unfold closing at 2. unfold LF at 1. fold lf. cbn [app].
  rewrite Cut_skip by assumption.
  change (lf :: list_ascii_of_string "---") with closing.
  rewrite Cut_here. rewrite app_nil_r. reflexivity.
Qed.

Lemma ParseFrontmatter_block (opening w1 w2 after : gostring) :
  opening = "---" ++ LF \/ opening = "---" ++ CR ++ LF ->
  ~ In lf w1 -> ~ In lf w2 ->
  ParseFrontmatter
    (opening ++ Join ["title:" ++ w1; "author:" ++ w2] LF
       ++ closing ++ after)
  = ({| Title := Trim (TrimSpace w1) quotes;
        Author := Trim (TrimSpace w2) quotes |},
     skipTerminator after).
Proof.
  intros Hopen H1 H2.
  rewrite ParseFrontmatter_opened by assumption.
  rewrite Cut_block by assumption.
  unfold LF at 1 2. fold lf.
  rewrite Split_Join.
  - cbn [fold_left]. now rewrite parseLine_title, parseLine_author.
  - discriminate.
  - repeat constructor; apply not_In_lf_key;
      (reflexivity || assumption).
Qed.

(** C5, at the failing inputs.  In the first document the line after the
    opening line is exactly the delimiter and is not recognized: the
    content is returned whole.  In the second no line is exactly the
    delimiter, and the line that begins with three dashes closes the
    block: the title is extracted and the rest of that line begins the
    remaining content. *)
Theorem C5_closing_delimiter_search :
  ParseFrontmatter ("---" ++ LF ++ "---" ++ LF ++ "body" ++ LF)
  = (noMetadata, "---" ++ LF ++ "---" ++ LF ++ "body" ++ LF)
  /\ ParseFrontmatter
       ("---" ++ LF ++ "title: T" ++ LF ++ "---x" ++ LF ++ "body" ++ LF)
     = ({| Title := "T"; Author := [] |}, "x" ++ LF ++ "body" ++ LF).
Proof. vm_compute. split; reflexivity. Qed.

(** C6, at the failing inputs.  The declared title made of the digit 6
    and a single quote has no surrounding quotes, and its quote is
    removed; of the two layers of quotes around the declared title
    Hello, a double one around a single one, both are removed and the
    inner one is not preserved.  The quotes are removed as a set of
    bytes at the two ends of the value, not as a surrounding pair. *)
Theorem C6_quotes_removed_beyond_surrounding_pair :
  ParseFrontmatter (metadataDocument LF (" 6" ++ SQ) " me" "body")
  = ({| Title := "6"; Author := "me" |}, list_ascii_of_string "body")
  /\ ParseFrontmatter
       (metadataDocument LF (" " ++ DQ ++ SQ ++ "Hello" ++ SQ ++ DQ)
          " me" "body")
     = ({| Title := "Hello"; Author := "me" |},
        list_ascii_of_string "body").
Proof. vm_compute. split; reflexivity. Qed.

End ParseFrontmatterSpec.

(* ================================================================== *)
(** * More facts about the library models *)
(* ================================================================== *)

Module GoStringsFacts3.
Import GoStrings GoStringsMore GoStringsFacts GoStringsFacts2.

(** ** Splitting at a byte *)

Lemma splitByte_not_nil (q : ascii) (s : gostring) : splitByte q s <> [].
Proof.
  destruct s as [|c s]; cbn [splitByte]; [discriminate|].
  destruct (Ascii.eqb c q); [discriminate|].
  destruct (splitByte q s); discriminate.
Qed.

Lemma splitByte_nosep (q : ascii) (s : gostring) :
  ~ In q s -> splitByte q s = [s].
Proof.
  induction s as [|c s IH]; intros Hn; [reflexivity|].
  cbn [splitByte]. destruct (Ascii.eqb_spec c q) as [->|_].
  - exfalso. apply Hn. now left.
  - rewrite IH by (intros H; apply Hn; now right). reflexivity.
Qed.

Lemma splitByte_app_sep (q : ascii) (a b : gostring) :
  splitByte q (a ++ q :: b) = splitByte q a ++ splitByte q b.
Proof.
  induction a as [|c a IH]; cbn [app splitByte].
  - now rewrite Ascii.eqb_refl.
  - rewrite IH. destruct (Ascii.eqb c q); [reflexivity|].
    pose proof (splitByte_not_nil q a) as Hne.
    destruct (splitByte q a) as [|h t]; [congruence | reflexivity].
Qed.


Lemma splitFuel_splitByte (q : ascii) (fuel : nat) :
  forall s, length s < fuel -> splitFuel fuel s [q] = splitByte q s.
Proof.
  induction fuel as [|fuel IH]; intros s Hlen; [lia|].
  cbn [splitFuel]. destruct (Cut s [q]) as [[a b]|] eqn:Hcut.
  - apply Cut_byte_inv in Hcut as [-> Hn].
    rewrite splitByte_app_sep, (splitByte_nosep q a Hn). cbn [app].
    f_equal. apply IH. rewrite length_app in Hlen. cbn [length] in Hlen. lia.
  - apply Cut_byte_None_inv in Hcut. now rewrite splitByte_nosep.
Qed.

(** [Split] at a one-byte separator gives the pieces between its
    occurrences. *)
Lemma Split_splitByte (q : ascii) (s : gostring) :
  Split s [q] = splitByte q s.
Proof. unfold Split. apply splitFuel_splitByte. lia. Qed.

(** ** Joining *)

Lemma Join_cons (x : gostring) (l : list gostring) (sep : gostring) :
  l <> [] -> Join (x :: l) sep = x ++ sep ++ Join l sep.
Proof. destruct l; [congruence | reflexivity]. Qed.

Lemma Join_app (a b : list gostring) (sep : gostring) :
  a <> [] -> b <> [] ->
  Join (a ++ b) sep = Join a sep ++ sep ++ Join b sep.
Proof.
  intros Ha Hb. induction a as [|x a IH]; [congruence|].
  destruct a as [|y a].
  - cbn [app]. now rewrite Join_cons.
  - change ((x :: y :: a) ++ b) with (x :: (y :: a) ++ b).
    rewrite Join_cons by discriminate.
    rewrite IH by discriminate.
    rewrite (Join_cons x (y :: a)) by discriminate.
    now rewrite <- !app_assoc.
Qed.

Lemma Join_not_nil (l : list gostring) (sep : gostring) :
  (exists x, In x l /\ x <> []) -> Join l sep <> [].
Proof.
  induction l as [|y l IH]; intros (x & Hin & Hx); [destruct Hin|].
  destruct l as [|z l].
  - destruct Hin as [->|[]]. exact Hx.
  - rewrite Join_cons by discriminate.
    destruct y as [|c y]; [|discriminate].
    destruct Hin as [<-|Hin]; [congruence|].
    cbn [app]. intros H. apply app_eq_nil in H as [_ H].
    revert H. apply IH. now exists x.
Qed.

(** ** Suffixes *)

Lemma HasSuffix_app (p suffix : gostring) :
  HasSuffix (p ++ suffix) suffix = true.
Proof. unfold HasSuffix. rewrite rev_app_distr. apply HasPrefix_app. Qed.

Lemma TrimSuffix_app (p suffix : gostring) :
  TrimSuffix (p ++ suffix) suffix = p.
Proof.
  unfold TrimSuffix. rewrite HasSuffix_app, length_app.
  replace (length p + length suffix - length suffix) with (length p) by lia.
  induction p; simpl; [now destruct suffix | now f_equal].
Qed.

Lemma TrimSuffix_none (s suffix : gostring) :
  HasSuffix s suffix = false -> TrimSuffix s suffix = s.
Proof. unfold TrimSuffix. now intros ->. Qed.

Lemma TrimPrefix_app (prefix s : gostring) :
  TrimPrefix (prefix ++ s) prefix = s.
Proof.
  unfold TrimPrefix. rewrite HasPrefix_app.
  induction prefix; simpl; auto.
Qed.

Lemma In_dropWhile (p : ascii -> bool) (c : ascii) (s : gostring) :
  In c (dropWhile p s) -> In c s.
Proof.
  induction s as [|x s IH]; simpl; [auto|].
  destruct (p x); [intros H; right; auto | auto].
Qed.

Lemma In_trimFunc (p : ascii -> bool) (c : ascii) (s : gostring) :
  In c (trimFunc p s) -> In c s.
Proof.
  unfold trimFunc, trimRight. intros H.
  apply in_rev, In_dropWhile in H. apply in_rev in H.
  now apply In_dropWhile in H.
Qed.

End GoStringsFacts3.

Module GoPathFacts.
Import GoStrings GoStringsMore GoPath PathNotions.
Import GoStringsFacts GoStringsFacts2 GoStringsFacts3.

Lemma isName_inv (c : gostring) :
  isName c = true ->
  c <> [] /\ c <> "." /\ c <> dotdot /\ ~ In slash c.
Proof.
  unfold isName. intros H.
  repeat (apply andb_true_iff in H as [H ?]).
  repeat match goal with
         | E : negb _ = true |- _ => apply negb_true_iff in E
         end.
  repeat split; try (now apply gostring_eqb_neq).
  intros Hin.
  assert (existsb (Ascii.eqb slash) c = true) as E; [|congruence].
  apply existsb_exists. exists slash. split; [assumption|].
  apply Ascii.eqb_refl.
Qed.

Lemma forallb_isName_no_slash (comps : list gostring) :
  forallb isName comps = true -> Forall (fun c => ~ In slash c) comps.
Proof.
  rewrite forallb_forall, Forall_forall. intros H c Hc.
  now apply isName_inv, H.
Qed.

Lemma cleanStep_name (rooted : bool) (out : list gostring) (c : gostring) :
  isName c = true -> cleanStep rooted out c = c :: out.
Proof.
  intros H. apply isName_inv in H as (H1 & H2 & H3 & _).
  unfold cleanStep.
  apply gostring_eqb_neq in H1, H2, H3. now rewrite H1, H2, H3.
Qed.

Lemma fold_cleanStep_names (rooted : bool) (comps out : list gostring) :
  forallb isName comps = true ->
  fold_left (cleanStep rooted) comps out = rev comps ++ out.
Proof.
  revert out. induction comps as [|c comps IH]; intros out H;
    [reflexivity|].
  cbn [forallb] in H. apply andb_true_iff in H as [Hc Hcs].
  cbn [fold_left rev]. rewrite cleanStep_name by assumption.
  rewrite IH by assumption. now rewrite <- app_assoc.
Qed.

(** Without a double dot, [Clean] only drops the empty elements and the
    dots. *)
Lemma fold_cleanStep_no_dotdot (rooted : bool)
  (comps out : list gostring) :
  (forall c, In c comps -> c <> dotdot) ->
  fold_left (cleanStep rooted) comps out
  = rev (filter isKept comps) ++ out.
Proof.
  revert out. induction comps as [|c comps IH]; intros out H;
    [reflexivity|].
  cbn [fold_left filter].
  rewrite IH by (intros x Hx; apply H; now right).
  assert (c <> dotdot) as Hc by (apply H; now left).
  unfold cleanStep, isKept.
  destruct (gostring_eqb c []); [reflexivity|].
  destruct (gostring_eqb c "."); [reflexivity|].
  apply gostring_eqb_neq in Hc. rewrite Hc. cbn [negb andb rev].
  now rewrite <- app_assoc.
Qed.

Lemma Clean_rooted (s : gostring) :
  Clean ("/" ++ s)
  = "/" ++ Join (cleanElements true (splitByte slash s)) "/".
Proof.
  unfold Clean, cleanElements.
  change (list_ascii_of_string "/" ++ s) with (slash :: s).
  assert (gostring_eqb (slash :: s) [] = false) as ->
      by (now apply gostring_eqb_neq).
  assert (HasPrefix (slash :: s) "/" = true) as -> by reflexivity.
  change (list_ascii_of_string "/") with [slash].
  rewrite Split_splitByte.
  change (slash :: s) with ([] ++ slash :: s).
  rewrite splitByte_app_sep. reflexivity.
Qed.

Lemma Clean_relative (s : gostring) :
  s <> [] -> HasPrefix s "/" = false ->
  Clean s
  = let body := Join (cleanElements false (splitByte slash s)) "/" in
    if gostring_eqb body [] then "." else body.
Proof.
  intros Hs Hr. unfold Clean, cleanElements.
  apply gostring_eqb_neq in Hs. rewrite Hs, Hr.
  change (list_ascii_of_string "/") with [slash].
  now rewrite Split_splitByte.
Qed.

Lemma splitByte_Join (comps : list gostring) :
  comps <> [] -> Forall (fun c => ~ In slash c) comps ->
  splitByte slash (Join comps "/") = comps.
Proof.
  intros Hne Hall. rewrite <- Split_splitByte.
  change (list_ascii_of_string "/") with [slash].
  now apply Split_Join.
Qed.

Lemma splitByte_absolute (names : list gostring) :
  Forall (fun c => ~ In slash c) names ->
  filter isKept (splitByte slash (Join names "/"))
  = filter isKept names.
Proof.
  intros Hall. destruct names as [|n names]; [reflexivity|].
  now rewrite splitByte_Join.
Qed.

Lemma filter_isKept_names (names : list gostring) :
  forallb isName names = true -> filter isKept names = names.
Proof.
  induction names as [|n names IH]; intros H; [reflexivity|].
  cbn [forallb] in H. apply andb_true_iff in H as [Hn Hns].
  cbn [filter]. rewrite IH by assumption.
  apply isName_inv in Hn as (H1 & H2 & _).
  unfold isKept. apply gostring_eqb_neq in H1, H2. now rewrite H1, H2.
Qed.

Lemma names_not_dotdot (names : list gostring) :
  forallb isName names = true -> forall c, In c names -> c <> dotdot.
Proof.
  rewrite forallb_forall. intros H c Hc. now apply isName_inv, H.
Qed.

(** A path made of names is clean. *)
Lemma Clean_names (names : list gostring) :
  names <> [] -> forallb isName names = true ->
  Clean (Join names "/") = Join names "/".
Proof.
  intros Hne Hall.
  assert (Join names "/" <> []) as Hj.
  { apply Join_not_nil. destruct names as [|n names]; [congruence|].
    exists n. split; [now left|].
    cbn [forallb] in Hall. apply andb_true_iff in Hall as [Hn _].
    now apply isName_inv in Hn. }
  assert (HasPrefix (Join names "/") "/" = false) as Hr.
  { destruct names as [|n names]; [congruence|].
    cbn [forallb] in Hall. apply andb_true_iff in Hall as [Hn _].
    apply isName_inv in Hn as (Hn1 & _ & _ & Hn4).
    destruct n as [|c n]; [congruence|].
    assert (c <> slash) as Hc by (intros ->; apply Hn4; now left).
    unfold slash in Hc.
    destruct names; cbn; destruct (Ascii.eqb_spec c "/");
      (congruence || reflexivity). }
  rewrite Clean_relative by assumption. cbn zeta.
  unfold cleanElements.
  rewrite splitByte_Join
    by (assumption || now apply forallb_isName_no_slash).
  rewrite fold_cleanStep_names by assumption.
  rewrite app_nil_r, rev_involutive.
  apply gostring_eqb_neq in Hj. now rewrite Hj.
Qed.

Lemma JoinPath_two (a b : gostring) :
  a <> [] -> JoinPath [a; b] = Clean (a ++ "/" ++ b).
Proof.
  intros Ha. unfold JoinPath. cbn [fold_left concat].
  assert (gostring_eqb a [] = false) as Ea by (now apply gostring_eqb_neq).
  cbn [gostring_eqb]. rewrite Ea.
  assert (gostring_eqb [] [] = true) as -> by reflexivity.
  cbn [negb orb app]. rewrite Ea. cbn [negb orb].
  destruct (gostring_eqb (a ++ b ++ []) []) eqn:E.
  - apply gostring_eqb_eq in E. destruct a; [congruence | discriminate].
  - now rewrite <- app_assoc.
Qed.

(** The path of [x] joined onto an absolute directory made of names,
    when [x] holds no double dot. *)
Lemma Clean_under (base : list gostring) (x : gostring) :
  forallb isName base = true ->
  (forall c, In c (splitByte slash x) -> c <> dotdot) ->
  Clean (absolute base ++ "/" ++ x)
  = absolute (base ++ filter isKept (splitByte slash x)).
Proof.
  intros Hbase Hx. unfold absolute.
  rewrite <- app_assoc. rewrite Clean_rooted. f_equal. f_equal.
  unfold cleanElements.
  change (list_ascii_of_string "/" ++ x) with (slash :: x).
  rewrite splitByte_app_sep.
  rewrite fold_cleanStep_no_dotdot.
  - rewrite app_nil_r, rev_involutive, filter_app.
    rewrite splitByte_absolute by (now apply forallb_isName_no_slash).
    now rewrite filter_isKept_names.
  - intros c Hc. apply in_app_or in Hc as [Hc|Hc]; [|now apply Hx].
    destruct base as [|n base].
    + destruct Hc as [<-|[]]. discriminate.
    + rewrite splitByte_Join in Hc
        by (discriminate || now apply forallb_isName_no_slash).
      now apply (names_not_dotdot (n :: base)).
Qed.

End GoPathFacts.

(* ================================================================== *)
(** * [resolveLink] and the routes of relative references *)
(* ================================================================== *)

Module ResolveLinkSpec.
Import GoStrings GoStringsMore GoPath GoRegexp Renderer PathNotions.
Import GoStringsFacts GoStringsFacts2 GoStringsFacts3 GoPathFacts.

Lemma HasPrefix_app_stop (q : ascii) (pre a b : gostring) :
  ~ In q pre -> HasPrefix (a ++ q :: b) pre = HasPrefix a pre.
Proof.
  revert a. induction pre as [|x pre IH]; intros a Hn; [reflexivity|].
  destruct a as [|c a]; cbn [app HasPrefix].
  - destruct (Ascii.eqb_spec q x) as [->|_]; [|reflexivity].
    exfalso. apply Hn. now left.
  - rewrite IH by (intros H; apply Hn; now right). reflexivity.
Qed.

Lemma HasSuffix_after (q : ascii) (suffix p s : gostring) :
  ~ In q suffix -> HasSuffix (p ++ q :: s) suffix = HasSuffix s suffix.
Proof.
  intros Hn. unfold HasSuffix. rewrite rev_app_distr. cbn [rev].
  rewrite <- app_assoc. cbn [app]. apply HasPrefix_app_stop.
  intros H. apply Hn. now apply in_rev.
Qed.

Lemma Join_snoc (l : list gostring) (x sep : gostring) :
  l <> [] -> Join (l ++ [x]) sep = Join l sep ++ sep ++ x.
Proof. intros Hl. now rewrite Join_app by (assumption || discriminate). Qed.

Lemma Join_snoc_suffix (l : list gostring) (x y : gostring) :
  Join (l ++ [x ++ y]) "/" = Join (l ++ [x]) "/" ++ y.
Proof.
  destruct l as [|a l]; [reflexivity|].
  rewrite !Join_snoc by discriminate. now rewrite <- !app_assoc.
Qed.

Lemma HasSuffix_Join_last (l : list gostring) (x suffix : gostring) :
  ~ In slash suffix ->
  HasSuffix (Join (l ++ [x]) "/") suffix = HasSuffix x suffix.
Proof.
  intros Hn. destruct l as [|a l]; [reflexivity|].
  rewrite Join_snoc by discriminate.
  change (list_ascii_of_string "/" ++ x) with (slash :: x).
  now apply HasSuffix_after.
Qed.

(** Stripping the two spellings of the extension gives back the stem. *)
Lemma strip_extension (l : list gostring) (stem ext : gostring) :
  strippable stem ext ->
  TrimSuffix (TrimSuffix (Join (l ++ [stem ++ ext]) "/") ".md") ".MD"
  = Join (l ++ [stem]) "/".
Proof.
  assert (~ In slash ".MD") as Hs.
  { cbn. intros H. repeat (destruct H as [H|H]; [discriminate|]). exact H. }
  rewrite Join_snoc_suffix. intros [[-> Hstem] | ->].
  - rewrite TrimSuffix_app. apply TrimSuffix_none.
    now rewrite HasSuffix_Join_last.
  - rewrite (TrimSuffix_none (_ ++ ".MD") ".md").
    + apply TrimSuffix_app.
    + unfold HasSuffix. rewrite rev_app_distr. reflexivity.
Qed.

Lemma HasPrefix_names (names : list gostring) :
  forallb isName names = true -> HasPrefix (Join names "/") "/" = false.
Proof.
  intros Hall. destruct names as [|n names]; [reflexivity|].
  cbn [forallb] in Hall. apply andb_true_iff in Hall as [Hn _].
  apply isName_inv in Hn as (Hn1 & _ & _ & Hn4).
  destruct n as [|c n]; [congruence|].
  assert (c <> slash) as Hc by (intros ->; apply Hn4; now left).
  unfold slash in Hc.
  destruct names; cbn; destruct (Ascii.eqb_spec c "/");
    (congruence || reflexivity).
Qed.

Lemma isName_stem_ext (stem ext : gostring) :
  ~ In slash stem ->
  ext = list_ascii_of_string ".md" \/ ext = list_ascii_of_string ".MD" ->
  isName (stem ++ ext) = true.
Proof.
  intros Hs Hext. unfold isName.
  assert (existsb (Ascii.eqb slash) (stem ++ ext) = false) as ->.
  { rewrite existsb_app.
    assert (existsb (Ascii.eqb slash) stem = false) as ->.
    { destruct (existsb (Ascii.eqb slash) stem) eqn:E; [|reflexivity].
      apply existsb_exists in E as (x & Hx & E).
      apply Ascii.eqb_eq in E. subst x. contradiction. }
    destruct Hext as [-> | ->]; reflexivity. }
  assert (forall t, 3 <= length t -> gostring_eqb t [] = false
                    /\ gostring_eqb t "." = false
                    /\ gostring_eqb t dotdot = false) as Hlen.
  { intros t Ht. repeat split; apply gostring_eqb_neq; intros ->;
      cbn in Ht; lia. }
  destruct (Hlen (stem ++ ext)) as (-> & -> & ->); [|reflexivity].
  rewrite length_app. destruct Hext as [-> | ->]; cbn; lia.
Qed.

Lemma Join_names_proper (l : list gostring) :
  l <> [] -> forallb isName l = true ->
  Join l "/" <> []
  /\ gostring_eqb (Join l "/") [] = false
  /\ gostring_eqb (Join l "/") "." = false.
Proof.
  intros Hne Hl.
  pose proof (splitByte_Join l Hne (forallb_isName_no_slash _ Hl)) as Hs.
  assert (Join l "/" <> []) as H1.
  { intros E. rewrite E in Hs. cbn in Hs. subst l. discriminate. }
  repeat split; [assumption | now apply gostring_eqb_neq |].
  apply gostring_eqb_neq. intros E. rewrite E in Hs. cbn in Hs.
  subst l. discriminate.
Qed.

Lemma route_of_names (currentDir linkPath : gostring)
  (l : list gostring) (stem ext : gostring) :
  resolveLink linkPath currentDir = Join (l ++ [stem ++ ext]) "/" ->
  strippable stem ext ->
  forallb isName (l ++ [stem ++ ext]) = true ->
  route linkPath currentDir = "/" ++ Join (l ++ [stem]) "/".
Proof.
  intros Hres Hext Hnames. unfold route. rewrite Hres.
  rewrite strip_extension by assumption.
  destruct (HasPrefix (Join (l ++ [stem]) "/") "/") eqn:E; [|reflexivity].
  exfalso. rewrite <- (app_nil_r stem) in E.
  rewrite Join_snoc_suffix in E.
  pose proof (HasPrefix_names _ Hnames) as Hp.
  rewrite Join_snoc_suffix in Hp.
  destruct (Join (l ++ [stem]) "/") as [|c r]; [discriminate|].
  rewrite app_nil_r in E. cbn in E, Hp. congruence.
Qed.

(** X1.  A relative reference to a document in the directory of the
    current document or below it: the route is the directory of the
    current document, the directories of the reference and the name of
    the document without its extension. *)
Theorem route_relative_reference :
  forall (dirs sub : list gostring) (stem ext : gostring),
    forallb isName dirs = true ->
    forallb isName sub = true ->
    isName (stem ++ ext) = true ->
    strippable stem ext ->
    route (Join (sub ++ [stem ++ ext]) "/") (Join dirs "/")
    = "/" ++ Join (dirs ++ sub ++ [stem]) "/".
Proof.
  intros dirs sub stem ext Hdirs Hsub Hfile Hext.
  assert (forallb isName (sub ++ [stem ++ ext]) = true) as Hlink.
  { rewrite forallb_app, Hsub. cbn. now rewrite Hfile. }
  assert (forallb isName (dirs ++ sub ++ [stem ++ ext]) = true) as Hall.
  { now rewrite forallb_app, Hdirs, Hlink. }
  replace (dirs ++ sub ++ [stem]) with ((dirs ++ sub) ++ [stem])
    by (now rewrite <- app_assoc).
  apply route_of_names with (ext := ext);
    [|assumption | now rewrite <- app_assoc].
  unfold resolveLink. rewrite (HasPrefix_names _ Hlink).
  destruct dirs as [|d dirs].
  - reflexivity.
  - destruct (Join_names_proper (d :: dirs) ltac:(discriminate) Hdirs)
      as (Hne & -> & ->).
    cbn [orb]. rewrite JoinPath_two by assumption.
    rewrite <- Join_app by (discriminate || now destruct sub).
    rewrite <- app_assoc.
    rewrite Clean_names by (discriminate || assumption).
    rewrite Clean_names by (discriminate || assumption).
    reflexivity.
Qed.

Lemma route_relative_reference_witness :
  let dirs : list gostring := ["docs" : gostring; "v2" : gostring] in
  let sub : list gostring := ["api" : gostring] in
  let stem : gostring := "index" in
  route (Join (sub ++ [stem ++ ".MD"]) "/") (Join dirs "/")
  = "/" ++ Join (dirs ++ sub ++ [stem]) "/".
Proof.
  apply (route_relative_reference
           ["docs" : gostring; "v2" : gostring] ["api" : gostring]
           "index" ".MD");
    try reflexivity.
  now right.
Defined.





End ResolveLinkSpec.

(* ================================================================== *)
(** * [handleMarkdown], the [-auth] flag and the middleware *)
(* ================================================================== *)

Module ServerSpec.
Import GoStrings GoStringsMore GoPath GoRegexp Renderer RenderPipeline.
Import PathNotions Main Server.
Import GoStringsFacts GoStringsFacts2 GoStringsFacts3 GoPathFacts.
Import ResolveLinkSpec.

Lemma existsb_slash (s : gostring) :
  existsb (Ascii.eqb slash) s = true <-> In slash s.
Proof.
  rewrite existsb_exists. split.
  - intros (x & Hx & E). apply Ascii.eqb_eq in E. now subst.
  - intros H. exists slash. split; [assumption | apply Ascii.eqb_refl].
Qed.

Lemma existsb_slash_false (s : gostring) :
  ~ In slash s -> existsb (Ascii.eqb slash) s = false.
Proof.
  intros H. destruct (existsb (Ascii.eqb slash) s) eqn:E; [|reflexivity].
  now apply existsb_slash in E.
Qed.

Lemma dirPart_nosep (s : gostring) :
  ~ In slash s -> GoFilepath.dirPart s = [].
Proof.
  intros H. destruct s as [|c s]; [reflexivity|].
  cbn [GoFilepath.dirPart]. now rewrite existsb_slash_false.
Qed.

Lemma dirPart_app (p x : gostring) :
  GoFilepath.dirPart (p ++ slash :: x)
  = p ++ slash :: GoFilepath.dirPart x.
Proof.
  induction p as [|c p IH].
  - cbn [app GoFilepath.dirPart existsb]. now rewrite Ascii.eqb_refl.
  - cbn [app GoFilepath.dirPart].
    assert (existsb (Ascii.eqb slash) (c :: p ++ slash :: x) = true) as ->.
    { apply existsb_slash. right. apply in_or_app. right. now left. }
    now rewrite IH.
Qed.

Lemma lastElement_nosep (s : gostring) :
  ~ In slash s -> GoFilepath.lastElement s = s.
Proof.
  intros H. destruct s as [|c s]; [reflexivity|].
  cbn [GoFilepath.lastElement]. now rewrite existsb_slash_false.
Qed.

Lemma lastElement_app (p x : gostring) :
  GoFilepath.lastElement (p ++ slash :: x) = GoFilepath.lastElement x.
Proof.
  induction p as [|c p IH].
  - cbn [app GoFilepath.lastElement existsb].
    now rewrite Ascii.eqb_refl.
  - cbn [app GoFilepath.lastElement].
    assert (existsb (Ascii.eqb slash) (c :: p ++ slash :: x) = true) as ->.
    { apply existsb_slash. right. apply in_or_app. right. now left. }
    exact IH.
Qed.


(** ** The directory and the base of the path of a document *)

Lemma Dir_names (dirs : list gostring) (stem : gostring) :
  forallb isName dirs = true -> ~ In slash stem ->
  GoFilepath.Dir (Join (dirs ++ [stem]) "/")
  = if gostring_eqb (Join dirs "/") [] then "." else Join dirs "/".
Proof.
  intros Hdirs Hstem. unfold GoFilepath.Dir.
  destruct dirs as [|d dirs].
  - cbn [app Join]. now rewrite dirPart_nosep.
  - rewrite Join_snoc by discriminate.
    change (list_ascii_of_string "/" ++ stem) with (slash :: stem).
    rewrite dirPart_app, dirPart_nosep by assumption.
    destruct (Join_names_proper (d :: dirs) ltac:(discriminate) Hdirs)
      as (Hne & E & _).
    unfold gostring in *. rewrite E.
    rewrite Clean_relative.
    + cbn zeta. unfold cleanElements.
      rewrite splitByte_app_sep, splitByte_Join
        by (discriminate || now apply forallb_isName_no_slash).
      rewrite fold_left_app.
      rewrite (fold_cleanStep_names false (d :: dirs) [] Hdirs).
      cbn [splitByte fold_left].
      assert (forall o, cleanStep false o [] = o) as -> by reflexivity.
      rewrite ?app_nil_r, rev_involutive. unfold gostring in *.
      now rewrite E.
    + intros H. apply app_eq_nil in H as [_ H]. discriminate.
    + pose proof (HasPrefix_names _ Hdirs) as Hp.
      destruct (Join (d :: dirs) "/") as [|c r]; [congruence|].
      exact Hp.
Qed.

Lemma trimRight_keep (p : ascii -> bool) (s : gostring) (c : ascii) :
  p c = false -> trimRight p (s ++ [c]) = s ++ [c].
Proof.
  intros Hc. unfold trimRight. rewrite rev_app_distr. cbn [rev app].
  cbn [dropWhile]. rewrite Hc. cbn [rev]. now rewrite rev_involutive.
Qed.

Lemma Base_names (dirs : list gostring) (stem : gostring) :
  isName stem = true ->
  GoFilepath.Base (Join (dirs ++ [stem]) "/") = stem.
Proof.
  intros Hstem. apply isName_inv in Hstem as (Hne & _ & _ & Hslash).
  unfold GoFilepath.Base.
  assert (Join (dirs ++ [stem]) "/" <> []) as Hj.
  { apply Join_not_nil. exists stem. split; [|assumption].
    apply in_or_app. right. now left. }
  apply gostring_eqb_neq in Hj. unfold gostring in *. rewrite Hj.
  assert (exists s c, stem = s ++ [c]) as (s & c & ->).
  { destruct (exists_last Hne) as (s & c & ->). now exists s, c. }
  assert (c <> slash) as Hc.
  { intros ->. apply Hslash. apply in_or_app. right. now left. }
  assert (Ascii.eqb slash c = false) as Hcb.
  { destruct (Ascii.eqb_spec slash c); congruence. }
  replace (Join (dirs ++ [s ++ [c]]) "/")
    with (Join (dirs ++ [s]) "/" ++ [c])
    by (now rewrite <- Join_snoc_suffix).
  rewrite trimRight_keep by assumption.
  rewrite <- Join_snoc_suffix.
  assert (GoFilepath.lastElement (Join (dirs ++ [s ++ [c]]) "/")
          = s ++ [c]) as Hlast.
  { destruct dirs as [|d dirs].
    - cbn [app Join]. now apply lastElement_nosep.
    - rewrite Join_snoc by discriminate.
      change (list_ascii_of_string "/" ++ s ++ [c])
        with (slash :: s ++ [c]).
      rewrite lastElement_app. now apply lastElement_nosep. }
  apply gostring_eqb_neq in Hne. unfold gostring in *.
  rewrite Hlast. now rewrite Hne.
Qed.

(** ** The file that is read *)

Lemma Join_base_names (base loc : list gostring) :
  forallb isName base = true -> forallb isName loc = true -> loc <> [] ->
  GoFilepath.Join [absolute base; Join loc "/"] = absolute (base ++ loc).
Proof.
  intros Hbase Hloc Hne. unfold GoFilepath.Join.
  rewrite JoinPath_two by discriminate.
  rewrite Clean_under.
  - rewrite splitByte_Join
      by (assumption || now apply forallb_isName_no_slash).
    now rewrite filter_isKept_names.
  - assumption.
  - rewrite splitByte_Join
      by (assumption || now apply forallb_isName_no_slash).
    now apply names_not_dotdot.
Qed.

Lemma isName_stem_ext' (stem ext : gostring) :
  isName stem = true -> strippable stem ext ->
  isName (stem ++ ext) = true.
Proof.
  intros Hs Hext. apply isName_stem_ext.
  - now apply isName_inv in Hs.
  - destruct Hext as [[-> _] | ->]; auto.
Qed.

Lemma forallb_snoc (f : gostring -> bool) (l : list gostring)
  (x : gostring) :
  forallb f l = true -> f x = true -> forallb f (l ++ [x]) = true.
Proof. intros Hl Hx. rewrite forallb_app, Hl. cbn. now rewrite Hx. Qed.

(** X4.  The page served for the route of a document.  When the base
    directory and the path of a document file are made of names, the
    request for the route of the document (its path without the
    extension) reads that file, rewrites the references relatively to
    the directory of the document, and titles the page with the title of
    the metadata or else with the name of the file without extension.
    For a file with the upper-case extension this holds when no file of
    the same name with the lower-case extension can be read. *)
Theorem handleMarkdown_serves_document :
  forall (base dirs : list gostring) (stem ext title content : gostring)
         (ReadFile Render : gostring -> option gostring),
    forallb isName base = true ->
    forallb isName dirs = true ->
    isName stem = true ->
    strippable stem ext ->
    ReadFile (absolute (base ++ dirs ++ [stem ++ ext])) = Some content ->
    (ext = list_ascii_of_string ".MD" ->
     ReadFile (absolute (base ++ dirs ++ [stem ++ ".md"])) = None) ->
    handleMarkdown (absolute base) title ReadFile Render
      ("/" ++ Join (dirs ++ [stem]) "/")
    = let '(frontmatter, body) := ParseFrontmatter content in
      match Render body with
      | None => InternalServerError
      | Some html =>
          Page {| PageData.Title :=
                    if gostring_eqb (Renderer.Title frontmatter) []
                    then stem else Renderer.Title frontmatter;
                  PageData.SiteTitle := title;
                  PageData.Author := Renderer.Author frontmatter;
                  PageData.Content := RewriteLinks html (Join dirs "/");
                  PageData.Path := "/" ++ Join (dirs ++ [stem]) "/" |}
      end.
Proof.
  intros base dirs stem ext title content ReadFile Render
    Hbase Hdirs Hstem Hext Hread Hlower.
  unfold handleMarkdown. rewrite TrimPrefix_app.
  assert (readMarkdown (absolute base) ReadFile (Join (dirs ++ [stem]) "/")
          = Some content) as ->.
  { unfold readMarkdown. rewrite <- !Join_snoc_suffix.
    assert (forall e, strippable stem e ->
              GoFilepath.Join
                [absolute base; Join (dirs ++ [stem ++ e]) "/"]
              = absolute (base ++ dirs ++ [stem ++ e])) as Hpath.
    { intros e He. rewrite Join_base_names; try assumption.
      - reflexivity.
      - apply forallb_snoc; [assumption|]. now apply isName_stem_ext'.
      - now destruct dirs. }
    unfold gostring in *.
    rewrite (Hpath ".MD") by (now right).
    destruct Hext as [[-> Hs] | ->].
    - rewrite (Hpath ".md") by (left; now split). now rewrite Hread.
    - assert (ReadFile
                (GoFilepath.Join
                   [absolute base; Join (dirs ++ [stem ++ ".md"]) "/"])
              = None) as E.
      { rewrite Join_base_names;
          [now apply Hlower | assumption | | now destruct dirs].
        apply forallb_snoc; [assumption|].
        apply isName_stem_ext; [now apply isName_inv in Hstem | auto]. }
      unfold gostring in *. rewrite E. exact Hread. }
  destruct (ParseFrontmatter content) as [frontmatter body].
  unfold RenderWithLinks.
  destruct (Render body) as [html|]; [|reflexivity].
  rewrite Base_names by assumption.
  rewrite Dir_names
    by (assumption || now apply isName_inv in Hstem).
  f_equal. f_equal.
  destruct (gostring_eqb (Join dirs "/") []) eqn:E.
  - apply gostring_eqb_eq in E. unfold gostring in *. rewrite E.
    reflexivity.
  - destruct (gostring_eqb (Join dirs "/") ".") eqn:E2; [|reflexivity].
    exfalso. destruct dirs as [|d dirs]; [discriminate|].
    destruct (Join_names_proper (d :: dirs) ltac:(discriminate) Hdirs)
      as (_ & _ & E3).
    unfold gostring in *. congruence.
Qed.

Lemma handleMarkdown_serves_document_witness :
  let ReadFile : gostring -> option gostring :=
    fun p => if gostring_eqb p "/srv/docs/guide/intro.md"
             then Some (list_ascii_of_string "# Intro") else None in
  let Render : gostring -> option gostring := fun body => Some body in
  handleMarkdown (absolute ["srv" : gostring; "docs" : gostring])
    "Docs" ReadFile Render
    ("/" ++ Join (["guide" : gostring] ++ ["intro" : gostring]) "/")
  = let '(frontmatter, body) := ParseFrontmatter "# Intro" in
    match Render body with
    | None => InternalServerError
    | Some html =>
        Page {| PageData.Title :=
                  if gostring_eqb (Renderer.Title frontmatter) []
                  then "intro" else Renderer.Title frontmatter;
                PageData.SiteTitle := "Docs";
                PageData.Author := Renderer.Author frontmatter;
                PageData.Content :=
                  RewriteLinks html (Join ["guide" : gostring] "/");
                PageData.Path :=
                  "/" ++ Join (["guide" : gostring] ++ ["intro" : gostring])
                           "/" |}
    end.
Proof.
  intros ReadFile Render.
  apply (handleMarkdown_serves_document
           ["srv" : gostring; "docs" : gostring] ["guide" : gostring]
           "intro" ".md" "Docs" "# Intro" ReadFile Render);
    try reflexivity.
  - left. split; reflexivity.
  - discriminate.
Defined.

(** ** The files that a request can reach *)




(** ** The credentials *)

(** X6.  The flag made of a user name without colon and a password,
    both not empty, is accepted and gives back the two; with these
    credentials the handler of the server answers what the routes answer
    when the request carries exactly this user name and password, and
    answers Unauthorized to every other request. *)
Theorem auth_flag_enforced :
  forall (user pass : gostring),
    user <> [] -> pass <> [] -> ~ In ":"%char user ->
    parseAuth (user ++ ":" ++ pass) = Credentials user pass
    /\ (forall mux, startHandler user pass mux (Some (user, pass)) = mux)
    /\ (forall mux basicAuth,
           basicAuth <> Some (user, pass) ->
           startHandler user pass mux basicAuth = Unauthorized).
Proof.
  intros user pass Hu Hp Hcolon. repeat split.
  - unfold parseAuth.
    assert (gostring_eqb (user ++ ":" ++ pass) [] = false) as ->.
    { apply gostring_eqb_neq. destruct user; [congruence | discriminate]. }
    cbn [negb]. unfold SplitN2.
    change (list_ascii_of_string ":" ++ pass) with (":"%char :: pass).
    change (list_ascii_of_string ":") with [":"%char].
    rewrite Cut_byte_found by assumption.
    apply gostring_eqb_neq in Hu, Hp. now rewrite Hu, Hp.
  - intros mux. unfold startHandler, basicAuthMiddleware.
    apply gostring_eqb_neq in Hu. rewrite Hu.
    now rewrite !gostring_eqb_refl.
  - intros mux basicAuth Hne. unfold startHandler, basicAuthMiddleware.
    apply gostring_eqb_neq in Hu. rewrite Hu. cbn [negb].
    destruct basicAuth as [[u p]|]; [|reflexivity].
    destruct (gostring_eqb u user) eqn:Eu; [|reflexivity].
    destruct (gostring_eqb p pass) eqn:Ep; [|reflexivity].
    apply gostring_eqb_eq in Eu, Ep. subst. congruence.
Qed.

Lemma auth_flag_enforced_witness :
  parseAuth ("admin" ++ ":" ++ "s3:cret") = Credentials "admin" "s3:cret"
  /\ (forall mux,
         startHandler "admin" "s3:cret" mux
           (Some (list_ascii_of_string "admin",
                  list_ascii_of_string "s3:cret")) = mux)
  /\ (forall mux basicAuth,
         basicAuth <> Some (list_ascii_of_string "admin",
                            list_ascii_of_string "s3:cret") ->
         startHandler "admin" "s3:cret" mux basicAuth = Unauthorized).
Proof.
  apply (auth_flag_enforced "admin" "s3:cret"); try discriminate.
  cbn. intros H. repeat (destruct H as [H|H]; [discriminate|]). exact H.
Defined.

(** X7.  The flags that [main] accepts: the empty flag, which leaves
    the server without credentials, so that every request reaches the
    routes; and the flags with a colon that has text before it and text
    after it, split at their first colon.  Every other flag is fatal. *)
Theorem auth_flag_accepted :
  forall (auth user pass : gostring),
    parseAuth auth = Credentials user pass ->
    (auth = [] /\ user = [] /\ pass = []
     /\ forall mux basicAuth, startHandler user pass mux basicAuth = mux)
    \/ (auth = user ++ ":" ++ pass /\ user <> [] /\ pass <> []
        /\ ~ In ":"%char user).
Proof.
  intros auth user pass H. unfold parseAuth in H.
  destruct (gostring_eqb auth []) eqn:E.
  - left. apply gostring_eqb_eq in E. injection H as <- <-.
    repeat split; assumption.
  - right. cbn [negb] in H. unfold SplitN2 in H.
    change (list_ascii_of_string ":") with [":"%char] in H.
    destruct (Cut auth [":"%char]) as [[u p]|] eqn:Hcut; [|discriminate].
    destruct (gostring_eqb u []) eqn:Eu; [discriminate|].
    destruct (gostring_eqb p []) eqn:Ep; [discriminate|].
    injection H as <- <-.
    apply Cut_byte_inv in Hcut as [-> Hn].
    repeat split; try assumption; now apply gostring_eqb_neq.
Qed.

Lemma auth_flag_accepted_witness :
  (list_ascii_of_string "ann:pw" = [] /\ list_ascii_of_string "ann" = []
   /\ list_ascii_of_string "pw" = []
   /\ forall mux basicAuth, startHandler "ann" "pw" mux basicAuth = mux)
  \/ (list_ascii_of_string "ann:pw" = "ann" ++ ":" ++ "pw"
      /\ list_ascii_of_string "ann" <> []
      /\ list_ascii_of_string "pw" <> []
      /\ ~ In ":"%char (list_ascii_of_string "ann")).
Proof. apply (auth_flag_accepted "ann:pw" "ann" "pw"). reflexivity. Defined.

End ServerSpec.

(* ================================================================== *)
(** * [ParseFrontmatter]: what remains and what is skipped *)
(* ================================================================== *)

Module ParseFrontmatterMore.
Import GoStrings Renderer Properties.
Import GoStringsFacts GoStringsFacts2 GoStringsFacts3 ParseFrontmatterSpec.

Lemma ParseFrontmatter_not_opened (content : gostring) :
  HasPrefix content ("---" ++ LF) = false ->
  HasPrefix content ("---" ++ CR ++ LF) = false ->
  ParseFrontmatter content = (noMetadata, content).
Proof. intros H1 H2. unfold ParseFrontmatter. now rewrite H1, H2. Qed.

Lemma skipTerminator_suffix (after : gostring) :
  exists skipped, after = skipped ++ skipTerminator after.
Proof.
  unfold skipTerminator, sliceFrom.
  destruct (HasPrefix after (CR ++ LF)) eqn:E1.
  - apply HasPrefix_inv in E1 as [r ->]. now exists (CR ++ LF).
  - destruct (HasPrefix after LF) eqn:E2.
    + apply HasPrefix_inv in E2 as [r ->]. now exists LF.
    + now exists [].
Qed.

(** X8.  Whatever the content, the remaining content that
    [ParseFrontmatter] returns is the end of the content: the content is
    some consumed text followed by it. *)
Theorem ParseFrontmatter_remaining_is_suffix :
  forall (content : gostring),
    exists consumed,
      content = consumed ++ snd (ParseFrontmatter content).
Proof.
  intros content.
  assert (forall opening rest,
             opening = "---" ++ LF \/ opening = "---" ++ CR ++ LF ->
             exists consumed,
               opening ++ rest
               = consumed ++ snd (ParseFrontmatter (opening ++ rest)))
    as Hopened.
  { intros opening rest Hopen.
    rewrite ParseFrontmatter_opened by assumption.
    destruct (Cut rest closing) as [[fmBlock after]|] eqn:Hcut.
    - apply Cut_inv in Hcut. subst rest. cbn [snd].
      destruct (skipTerminator_suffix after) as [skipped Hs].
      exists (opening ++ fmBlock ++ closing ++ skipped).
      rewrite Hs at 1. now rewrite <- !app_assoc.
    - now exists []. }
  destruct (HasPrefix content ("---" ++ LF)) eqn:E1.
  - apply HasPrefix_inv in E1 as [rest ->]. apply Hopened. now left.
  - destruct (HasPrefix content ("---" ++ CR ++ LF)) eqn:E2.
    + apply HasPrefix_inv in E2 as [rest ->]. apply Hopened. now right.
    + rewrite ParseFrontmatter_not_opened by assumption. now exists [].
Qed.

(** X9.  An opening delimiter line after which no line feed is followed
    by three dashes opens no block: the metadata are empty and the
    content is returned whole. *)
Theorem ParseFrontmatter_unterminated :
  forall (opening rest : gostring),
    opening = "---" ++ LF \/ opening = "---" ++ CR ++ LF ->
    (forall before after, rest <> before ++ closing ++ after) ->
    ParseFrontmatter (opening ++ rest) = (noMetadata, opening ++ rest).
Proof.
  intros opening rest Hopen Hnone.
  rewrite ParseFrontmatter_opened by assumption.
  destruct (Cut rest closing) as [[fmBlock after]|] eqn:Hcut;
    [|reflexivity].
  apply Cut_inv in Hcut. now apply Hnone in Hcut.
Qed.

Lemma ParseFrontmatter_unterminated_witness :
  ParseFrontmatter (("---" ++ LF) ++ "--")
  = (noMetadata, ("---" ++ LF) ++ "--").
Proof.
  apply ParseFrontmatter_unterminated; [now left|].
  intros before after H.
  apply (f_equal (@length ascii)) in H.
  rewrite !length_app in H. cbn in H. lia.
Defined.

Lemma parseLine_no_colon (fm : Frontmatter) (line : gostring) :
  ~ In ":"%char line -> parseLine fm line = fm.
Proof.
  intros Hn. unfold parseLine.
  destruct (gostring_eqb (TrimSpace line) []); [reflexivity|].
  unfold SplitN2. change (list_ascii_of_string ":") with [":"%char].
  rewrite Cut_byte_None; [reflexivity|].
  intros H. apply Hn. unfold TrimSpace in H. now apply In_trimFunc in H.
Qed.

(** X10.  The lines of a block that hold no colon are skipped: they
    leave the metadata as they are. *)
Theorem parseLine_skips_lines_without_colon :
  forall (lines : list gostring) (fm : Frontmatter),
    (forall line, In line lines -> ~ In ":"%char line) ->
    fold_left parseLine lines fm = fm.
Proof.
  induction lines as [|line lines IH]; intros fm H; [reflexivity|].
  cbn [fold_left]. rewrite parseLine_no_colon by (apply H; now left).
  apply IH. intros l Hl. apply H. now right.
Qed.

Lemma parseLine_skips_lines_without_colon_witness :
  fold_left parseLine
    [list_ascii_of_string "draft"; list_ascii_of_string "  "]
    {| Title := "T"; Author := "A" |}
  = {| Title := "T"; Author := "A" |}.
Proof.
  apply parseLine_skips_lines_without_colon.
  intros line [<-|[<-|[]]]; cbn; intros H;
    repeat (destruct H as [H|H]; [discriminate|]); exact H.
Defined.

End ParseFrontmatterMore.

(* ================================================================== *)
(** * [escapeHTML] *)
(* ================================================================== *)

Module EscapeHTMLSpec.
Import GoStrings Scanner EscapeNotions.
Import GoStringsFacts.

Lemma ReplaceAllByte_flat_map (f : ascii -> gostring) (old : ascii)
  (new s : gostring) :
  ReplaceAllByte (flat_map f s) old new
  = flat_map (fun c => ReplaceAllByte (f c) old new) s.
Proof.
  unfold ReplaceAllByte. induction s as [|c s IH]; [reflexivity|].
  cbn [flat_map]. now rewrite flat_map_app, IH.
Qed.

Lemma escapeByte_passes (c : ascii) :
  ReplaceAllByte
    (ReplaceAllByte
       (ReplaceAllByte (if Ascii.eqb c "&" then "&amp;" else [c])
          "<" "&lt;") ">" "&gt;") "034" "&quot;"
  = escapeByte c.
Proof.
  unfold escapeByte, dq.
  destruct (Ascii.eqb_spec c "&") as [->|H1]; [reflexivity|].
  destruct (Ascii.eqb_spec c "<") as [->|H2]; [reflexivity|].
  destruct (Ascii.eqb_spec c ">") as [->|H3]; [reflexivity|].
  destruct (Ascii.eqb_spec c "034") as [->|H4]; [reflexivity|].
  unfold ReplaceAllByte. cbn [flat_map app].
  apply Ascii.eqb_neq in H2, H3, H4. rewrite H2. cbn [flat_map app].
  rewrite H3. cbn [flat_map app]. now rewrite H4.
Qed.

(** X11.  The four replacements of [escapeHTML], made one after the
    other, amount to replacing every byte on its own: the ampersand, the
    angle brackets and the double quote by their entities, every other
    byte by itself.  The ampersands of the entities are not escaped
    again. *)
Theorem escapeHTML_bytewise :
  forall (s : gostring), escapeHTML s = flat_map escapeByte s.
Proof.
  intros s. unfold escapeHTML.
  unfold ReplaceAllByte at 4.
  rewrite !ReplaceAllByte_flat_map.
  apply flat_map_ext. intros c. apply escapeByte_passes.
Qed.

Lemma escapeByte_not_nil (c : ascii) : escapeByte c <> [].
Proof.
  unfold escapeByte.
  repeat match goal with
         | |- context [if ?b then _ else _] => destruct b
         end; discriminate.
Qed.

(** The first byte of what a byte becomes is the ampersand exactly for
    the four replaced bytes; the second byte tells them apart. *)
Lemma escapeByte_cases (c : ascii) :
  (c = "&"%char /\ escapeByte c = "&amp;")
  \/ (c = "<"%char /\ escapeByte c = "&lt;")
  \/ (c = ">"%char /\ escapeByte c = "&gt;")
  \/ (c = dq /\ escapeByte c = "&quot;")
  \/ (c <> "&"%char /\ escapeByte c = [c]).
Proof.
  unfold escapeByte, dq.
  destruct (Ascii.eqb_spec c "&") as [->|H1]; [now left|].
  destruct (Ascii.eqb_spec c "<") as [->|H2]; [right; now left|].
  destruct (Ascii.eqb_spec c ">") as [->|H3]; [right; right; now left|].
  destruct (Ascii.eqb_spec c "034") as [->|H4];
    [right; right; right; now left|].
  right. right. right. right. now split.
Qed.

(** X12.  [escapeHTML] loses nothing: two names with the same escaped
    text are the same name. *)
Theorem escapeHTML_injective :
  forall (a b : gostring), escapeHTML a = escapeHTML b -> a = b.
Proof.
  intros a b. rewrite !escapeHTML_bytewise. revert b.
  induction a as [|x a IH]; intros b H.
  - destruct b as [|y b]; [reflexivity|].
    cbn [flat_map] in H. symmetry in H.
    apply app_eq_nil in H as [H _]. now apply escapeByte_not_nil in H.
  - destruct b as [|y b].
    + cbn [flat_map] in H.
      apply app_eq_nil in H as [H _]. now apply escapeByte_not_nil in H.
    + cbn [flat_map] in H.
      destruct (escapeByte_cases x)
        as [[-> Ex]|[[-> Ex]|[[-> Ex]|[[-> Ex]|[Hx Ex]]]]];
      destruct (escapeByte_cases y)
        as [[-> Ey]|[[-> Ey]|[[-> Ey]|[[-> Ey]|[Hy Ey]]]]];
      rewrite ?Ex, ?Ey in H; cbn [app list_ascii_of_string] in H;
        try discriminate;
        try (injection H as H; f_equal; now apply IH);
        try (injection H as E H; congruence).
      injection H as -> H. f_equal. now apply IH.
Qed.

Lemma escapeHTML_injective_witness :
  list_ascii_of_string "a<b" = list_ascii_of_string "a<b".
Proof.
  apply (escapeHTML_injective "a<b" "a<b"). reflexivity.
Defined.

End EscapeHTMLSpec.

(* ================================================================== *)
(** * [ScanDirectory]: the entries of a scan *)
(* ================================================================== *)

Module GoSortSorted.
Import GoSort SortNotions.

Section Sorted.
Context {A : Type} (less : A -> A -> bool).
Hypothesis less_asym : forall x y, less x y = true -> less y x = false.

Lemma insertBack_sorted (x : A) (l : list A) :
  Sorted (back less) l -> Sorted (back less) (insertBack less x l).
Proof.
  induction l as [|y l IH]; intros Hs; simpl.
  - repeat constructor.
  - inversion Hs as [|? ? Hl Hy]; subst.
    destruct (less x y) eqn:Exy.
    + constructor; [now apply IH|].
      destruct l as [|z l]; simpl.
      * constructor. now apply less_asym.
      * inversion Hy; subst.
        destruct (less x z); constructor;
          [assumption | now apply less_asym].
    + constructor; [assumption|]. now constructor.
Qed.

Lemma fold_insertBack_sorted (l acc : list A) :
  Sorted (back less) acc ->
  Sorted (back less)
    (fold_left (fun sortedRev e => insertBack less e sortedRev) l acc).
Proof.
  revert acc. induction l as [|x l IH]; intros acc Hacc; simpl.
  - assumption.
  - apply IH. now apply insertBack_sorted.
Qed.

Lemma Sorted_snoc (l : list A) (b a : A) :
  Sorted (forth less) (l ++ [b]) -> forth less b a -> Sorted (forth less) ((l ++ [b]) ++ [a]).
Proof.
  intros Hs Hba. induction l as [|c l IH]; simpl in *.
  - repeat constructor. assumption.
  - inversion Hs as [|? ? Hl Hc]; subst.
    constructor; [now apply IH|].
    destruct l; simpl in *; inversion Hc; subst; now constructor.
Qed.

Lemma Sorted_rev (l : list A) : Sorted (back less) l -> Sorted (forth less) (rev l).
Proof.
  induction l as [|a l IH]; intros Hs; simpl.
  - constructor.
  - inversion Hs as [|? ? Hl Ha]; subst. specialize (IH Hl).
    destruct l as [|b l]; simpl in *.
    + repeat constructor.
    + inversion Ha; subst. now apply Sorted_snoc.
Qed.

Lemma Slice_sorted (l : list A) : Sorted (forth less) (Slice less l).
Proof.
  unfold Slice. apply Sorted_rev, fold_insertBack_sorted. constructor.
Qed.

Hypothesis less_trans :
  forall x y z, less y x = false -> less z y = false -> less z x = false.

Lemma Slice_ordered (l l1 l2 l3 : list A) (a b : A) :
  Slice less l = l1 ++ a :: l2 ++ b :: l3 -> less b a = false.
Proof.
  intros E.
  assert (StronglySorted (forth less) (Slice less l)) as Hs.
  { apply Sorted_StronglySorted; [|apply Slice_sorted].
    intros x y z Hxy Hyz. unfold forth in *. eauto. }
  rewrite E in Hs. clear E.
  induction l1 as [|c l1 IH]; simpl in Hs.
  - inversion Hs as [|? ? _ Hall]; subst.
    rewrite Forall_forall in Hall. apply Hall.
    apply in_or_app. right. now left.
  - inversion Hs; subst. now apply IH.
Qed.
End Sorted.

Section Rearranged.
Context {A : Type} (less : A -> A -> bool).

Lemma insertBack_Permutation (x : A) (l : list A) :
  Permutation (insertBack less x l) (x :: l).
Proof.
  induction l as [|y l IH]; simpl; [reflexivity|].
  destruct (less x y); [|reflexivity].
  rewrite IH. apply perm_swap.
Qed.

Lemma fold_insertBack_Permutation (l acc : list A) :
  Permutation
    (fold_left (fun sortedRev e => insertBack less e sortedRev) l acc)
    (l ++ acc).
Proof.
  revert acc. induction l as [|x l IH]; intros acc; simpl.
  - reflexivity.
  - rewrite IH, insertBack_Permutation. symmetry. apply Permutation_middle.
Qed.

Lemma Slice_Permutation (l : list A) : Permutation (Slice less l) l.
Proof.
  unfold Slice. rewrite <- Permutation_rev, fold_insertBack_Permutation.
  now rewrite app_nil_r.
Qed.
End Rearranged.

End GoSortSorted.

Module ScanDirectoryMore.
Import GoStrings GoPath GoSort GoFS Scanner ScanNotions.
Import GoStringsFacts GoRegexpFacts GoStringsFacts3 GoSortFacts GoSortSorted.

(** ** The comparison of Go strings *)

Lemma ltb_asym (a b : gostring) : ltb a b = true -> ltb b a = false.
Proof.
  revert b. induction a as [|x a IH]; intros [|y b]; simpl; try congruence.
  destruct (Nat.ltb_spec (nat_of_ascii x) (nat_of_ascii y));
    destruct (Nat.ltb_spec (nat_of_ascii y) (nat_of_ascii x));
    try congruence; try lia.
  apply IH.
Qed.

Lemma ltb_trans (a b c : gostring) :
  ltb b a = false -> ltb c b = false -> ltb c a = false.
Proof.
  revert b c. induction a as [|x a IH]; intros [|y b] [|z c]; simpl;
    try congruence.
  destruct (Nat.ltb_spec (nat_of_ascii y) (nat_of_ascii x));
    destruct (Nat.ltb_spec (nat_of_ascii x) (nat_of_ascii y));
    destruct (Nat.ltb_spec (nat_of_ascii z) (nat_of_ascii y));
    destruct (Nat.ltb_spec (nat_of_ascii y) (nat_of_ascii z));
    destruct (Nat.ltb_spec (nat_of_ascii z) (nat_of_ascii x));
    destruct (Nat.ltb_spec (nat_of_ascii x) (nat_of_ascii z));
    try congruence; try lia.
  apply IH.
Qed.

(** ** The extension of a name that ends in [.md], whatever the case *)

Lemma lowerByte_upper (c : ascii) :
  lowerByte c <> c -> 97 <= nat_of_ascii (lowerByte c).
Proof.
  unfold lowerByte.
  destruct (Nat.leb_spec 65 (nat_of_ascii c)); simpl; [|congruence].
  destruct (Nat.leb_spec (nat_of_ascii c) 90); simpl; [|congruence].
  intros _. rewrite nat_ascii_embedding; lia.
Qed.

Lemma lowerByte_dot (c : ascii) : lowerByte c = "."%char -> c = "."%char.
Proof.
  intros H. destruct (ascii_dec (lowerByte c) c) as [E|E]; [congruence|].
  apply lowerByte_upper in E. rewrite H in E. vm_compute in E. lia.
Qed.

Lemma lowerByte_letter (c x : ascii) :
  lowerByte c = x -> 97 <= nat_of_ascii x ->
  Ascii.eqb c "/" = false /\ Ascii.eqb c "." = false.
Proof.
  intros H Hx. split; apply Ascii.eqb_neq; intros ->; subst x;
    vm_compute in Hx; lia.
Qed.

Lemma markdown_name (name : gostring) :
  HasSuffix (ToLower name) ".md" = true ->
  exists stem ext,
    name = stem ++ ext /\ ToLower ext = ".md" /\ Ext name = ext.
Proof.
  intros H. apply HasSuffix_iff in H as [y Hy].
  unfold ToLower in Hy.
  apply map_eq_app in Hy as (stem & ext & -> & _ & Hext).
  exists stem, ext. split; [reflexivity|]. split; [exact Hext|].
  destruct ext as [|c1 [|c2 [|c3 [|? ?]]]]; try discriminate.
  cbn [map] in Hext.
  change (list_ascii_of_string ".md") with ["."; "m"; "d"]%char in Hext.
  injection Hext as H1 H2 H3.
  apply lowerByte_dot in H1. subst c1.
  apply lowerByte_letter in H2 as [H2 H2']; [|vm_compute; lia].
  apply lowerByte_letter in H3 as [H3 H3']; [|vm_compute; lia].
  unfold Ext. rewrite rev_app_distr. cbn [rev app extRev].
  now rewrite H3, H3', H2, H2'.
Qed.

(** ** The walk of the scanner *)

Lemma entryAt_below (path : location) (name : gostring)
  (found : location * gostring) :
  entryAt path (name :: fst found, snd found)
  = entryAt (path ++ [name]) found.
Proof. unfold entryAt. cbn [fst snd]. now rewrite <- app_assoc. Qed.

Lemma map_entryAt_below (path : location) (entries : list FsNode) :
  map (entryAt path)
    (flat_map
       (fun child =>
          map (fun found => (nodeName child :: fst found, snd found))
            (eligibleBelow child))
       entries)
  = flat_map
      (fun child =>
         map (entryAt (path ++ [nodeName child])) (eligibleBelow child))
      entries.
Proof.
  induction entries as [|child entries IH]; [reflexivity|].
  simpl. rewrite map_app. f_equal; [|exact IH].
  rewrite map_map. apply map_ext. intros found. apply entryAt_below.
Qed.

Lemma walkEntries_cons (path : location) (child : FsNode)
  (entries : list FsNode) (st : list FileEntry.t) :
  walkEntries scanFn path (child :: entries) st
  = let '(st', err) := walk scanFn (path ++ [nodeName child]) child st in
    match err with
    | NoError => walkEntries scanFn path entries st'
    | SkipDir =>
        if isDirNode child then walkEntries scanFn path entries st'
        else (st', err)
    | Failure _ => (st', err)
    end.
Proof. destruct child; reflexivity. Qed.

Lemma walkEntries_walked (path : location) (entries : list FsNode) :
  Forall walked entries ->
  forall st,
    match firstFault fault path entries with
    | Some e => exists st', walkEntries scanFn path entries st = (st', Failure e)
    | None =>
        walkEntries scanFn path entries st
        = (st ++ flat_map
                   (fun child =>
                      map (entryAt (path ++ [nodeName child]))
                        (eligibleBelow child))
                   entries,
           NoError)
    end.
Proof.
  induction 1 as [|child entries Hchild _ IH]; intros st.
  - cbn. now rewrite app_nil_r.
  - rewrite walkEntries_cons. cbn [firstFault flat_map].
    specialize (Hchild (path ++ [nodeName child]) st).
    destruct (fault (path ++ [nodeName child]) child) as [e|].
    + destruct Hchild as [st' ->]. now exists st'.
    + destruct Hchild as (err & -> & Herr).
      specialize (IH (st ++ map (entryAt (path ++ [nodeName child]))
                              (eligibleBelow child))).
      assert (match err with
              | NoError =>
                  walkEntries scanFn path entries
                    (st ++ map (entryAt (path ++ [nodeName child]))
                             (eligibleBelow child))
              | SkipDir =>
                  if isDirNode child
                  then walkEntries scanFn path entries
                         (st ++ map (entryAt (path ++ [nodeName child]))
                                  (eligibleBelow child))
                  else (st ++ map (entryAt (path ++ [nodeName child]))
                                (eligibleBelow child), err)
              | Failure _ =>
                  (st ++ map (entryAt (path ++ [nodeName child]))
                           (eligibleBelow child), err)
              end
              = walkEntries scanFn path entries
                  (st ++ map (entryAt (path ++ [nodeName child]))
                           (eligibleBelow child))) as ->.
      { destruct Herr as [->|[-> ->]]; reflexivity. }
      fold (firstFault fault path entries).
      destruct (firstFault fault path entries) as [e|].
      * exact IH.
      * rewrite IH. now rewrite <- app_assoc.
Qed.

Lemma node_walked (node : FsNode) : walked node.
Proof.
  induction node as [name|name entries IH|name|name]
    using FsNode_nested_ind; intros path st.
  - cbn [fault eligibleBelow]. exists NoError. split; [|now left].
    cbn [walk scanFn lstat GoFS.Name GoFS.IsDir nodeName isDirNode].
    unfold eligibleName.
    destruct (HasPrefix name "."); cbn [negb andb map];
      [now rewrite app_nil_r|].
    destruct (HasSuffix (ToLower name) ".md"); cbn [negb map];
      [|now rewrite app_nil_r].
    unfold entryAt. cbn [fst snd]. now rewrite app_nil_r.
  - rewrite ScanDirectorySpec.walk_Dir. unfold Properties.hidden.
    cbn [fault eligibleBelow].
    destruct (HasPrefix name ".").
    + exists SkipDir. cbn [map]. rewrite app_nil_r. split; [reflexivity|].
      right. now split.
    + pose proof (walkEntries_walked path entries IH st) as Hloop.
      fold (firstFault fault path entries).
      destruct (firstFault fault path entries) as [e|].
      * exact Hloop.
      * exists NoError. split; [|now left].
        now rewrite Hloop, map_entryAt_below.
  - cbn. now exists st.
  - cbn. now exists st.
Qed.

Lemma ScanDirectory_Ok (root : FsNode) (entries : list FileEntry.t) :
  ScanDirectory root = Ok entries ->
  entries = Slice lessEntry (map (entryAt []) (eligibleBelow root)).
Proof.
  unfold ScanDirectory, Walk.
  pose proof (node_walked root [] []) as H.
  destruct (fault [] root) as [e|].
  - destruct H as [st' ->]. discriminate.
  - destruct H as (err & -> & Herr). cbn [app].
    destruct Herr as [->|[-> _]]; intros H; injection H as <-;
      reflexivity.
Qed.

(** X13.  [ScanDirectory] computes exactly this: when the walk meets a
    node that cannot be examined or a directory that cannot be listed,
    outside of the hidden directories, the scan fails with the first such
    failure and returns no entry; otherwise it returns, sorted by
    relative path, one entry for every file that is not hidden, whose
    name ends in [.md] in whatever case, and that is not below a hidden
    directory. *)
Theorem ScanDirectory_entries (root : FsNode) :
  ScanDirectory root
  = match fault [] root with
    | Some e => Error e
    | None => Ok (Slice lessEntry (map (entryAt []) (eligibleBelow root)))
    end.
Proof.
  unfold ScanDirectory, Walk.
  pose proof (node_walked root [] []) as H.
  destruct (fault [] root) as [e|].
  - destruct H as [st' ->]. reflexivity.
  - destruct H as (err & -> & Herr). cbn [app].
    destruct Herr as [->|[-> _]]; reflexivity.
Qed.

Lemma eligibleBelow_name (node : FsNode) (found : location * gostring) :
  In found (eligibleBelow node) ->
  eligibleName (snd found) = true
  /\ ((fst found = [] /\ node = File (snd found))
      \/ exists dirs, fst found = dirs ++ [snd found]).
Proof.
  revert found.
  induction node as [name|name entries IH|name|name]
    using FsNode_nested_ind; intros found Hin; cbn [eligibleBelow] in Hin.
  - destruct (eligibleName name) eqn:E; [|contradiction].
    destruct Hin as [<-|[]]. cbn [fst snd]. split; [exact E | now left].
  - destruct (HasPrefix name "."); [contradiction|].
    apply in_flat_map in Hin as (child & Hchild & Hin).
    apply in_map_iff in Hin as ([loc n] & <- & Hbelow).
    rewrite Forall_forall in IH.
    destruct (IH child Hchild (loc, n) Hbelow) as [Hname Hloc].
    simpl in *. split; [exact Hname|]. right.
    destruct Hloc as [[E ->]|[dirs E]]; rewrite E.
    + exists []. reflexivity.
    + exists (nodeName child :: dirs). reflexivity.
  - contradiction.
  - contradiction.
Qed.

Lemma ScanDirectory_found (root : FsNode) (entries : list FileEntry.t)
  (e : FileEntry.t) :
  ScanDirectory root = Ok entries ->
  In e entries ->
  exists found, In found (eligibleBelow root) /\ e = entryAt [] found.
Proof.
  intros Hscan Hin. apply ScanDirectory_Ok in Hscan. subst entries.
  apply In_Slice in Hin. apply in_map_iff in Hin as (found & <- & Hin).
  now exists found.
Qed.

Lemma found_shape (root : FsNode) (found : location * gostring) :
  isDirNode root = true ->
  In found (eligibleBelow root) ->
  exists dirs stem ext,
    found = (dirs ++ [stem ++ ext], stem ++ ext)
    /\ ToLower ext = ".md"
    /\ Ext (stem ++ ext) = ext
    /\ HasPrefix (stem ++ ext) "." = false.
Proof.
  intros Hdir Hfound. destruct found as [loc name].
  pose proof (eligibleBelow_name root _ Hfound) as [Hname Hloc].
  cbn [fst snd] in *.
  destruct Hloc as [[_ ->]|[dirs ->]]; [discriminate|].
  unfold eligibleName in Hname.
  apply andb_true_iff in Hname as [Hvisible Hmd].
  apply negb_true_iff in Hvisible.
  destruct (markdown_name name Hmd) as (stem & ext & -> & Hext & HExt).
  exists dirs, stem, ext. repeat split; assumption.
Qed.

Lemma Rel_snoc (dirs : location) (name : gostring) :
  Rel (dirs ++ [name]) = Join (dirs ++ [name]) "/".
Proof. unfold Rel. destruct dirs; reflexivity. Qed.

(** X14.  The shape of an entry of the scan of a directory: it stands
    for a file that the walk lists; its relative path is made of the
    names of the directories that lead to the file and of the name of
    the file; that name ends in an extension that is [.md] in lower
    case; the name of the entry is the name of the file without that
    extension. *)
Theorem ScanDirectory_entry_shape (root : FsNode)
  (entries : list FileEntry.t) (e : FileEntry.t) :
  isDirNode root = true ->
  ScanDirectory root = Ok entries ->
  In e entries ->
  exists dirs stem ext,
    In (dirs ++ [stem ++ ext], stem ++ ext) (eligibleBelow root)
    /\ FileEntry.RelPath e = Join (dirs ++ [stem ++ ext]) "/"
    /\ FileEntry.Name e = stem
    /\ ToLower ext = ".md"
    /\ HasPrefix (stem ++ ext) "." = false.
Proof.
  intros Hdir Hscan Hin.
  destruct (ScanDirectory_found root entries e Hscan Hin)
    as (found & Hfound & ->).
  destruct (found_shape root found Hdir Hfound)
    as (dirs & stem & ext & -> & Hext & HExt & Hvisible).
  exists dirs, stem, ext. unfold entryAt.
  cbn [fst snd app FileEntry.RelPath FileEntry.Name].
  rewrite HExt, TrimSuffix_app, Rel_snoc. repeat split; assumption.
Qed.

Lemma ScanDirectory_entry_shape_witness :
  let root := Dir "docs" [Dir "guide" [File "Intro.MD"]; File "notes.txt"] in
  exists dirs stem ext,
    In (dirs ++ [stem ++ ext], stem ++ ext) (eligibleBelow root)
    /\ FileEntry.RelPath {| FileEntry.RelPath := "guide/Intro.MD";
                         FileEntry.Name := "Intro" |}
    = Join (dirs ++ [stem ++ ext]) "/"
    /\ FileEntry.Name {| FileEntry.RelPath := "guide/Intro.MD";
                         FileEntry.Name := "Intro" |} = stem
    /\ ToLower ext = ".md"
    /\ HasPrefix (stem ++ ext) "." = false.
Proof.
  intros root.
  apply (ScanDirectory_entry_shape root
           [{| FileEntry.RelPath := "guide/Intro.MD";
               FileEntry.Name := "Intro" |}]).
  - reflexivity.
  - vm_compute. reflexivity.
  - left. reflexivity.
Defined.

(** X15.  The entries that [ScanDirectory] returns are in the order of
    their relative paths, compared byte by byte: no entry is followed,
    at any distance, by an entry with a smaller path. *)
Theorem ScanDirectory_sorted (root : FsNode)
  (entries before between after : list FileEntry.t) (a b : FileEntry.t) :
  ScanDirectory root = Ok entries ->
  entries = before ++ a :: between ++ b :: after ->
  ltb (FileEntry.RelPath b) (FileEntry.RelPath a) = false.
Proof.
  intros Hscan Hsplit. apply ScanDirectory_Ok in Hscan.
  rewrite Hscan in Hsplit.
  apply (Slice_ordered lessEntry) in Hsplit; [exact Hsplit| |].
  - intros x y. apply ltb_asym.
  - intros x y z. apply ltb_trans.
Qed.

Lemma ScanDirectory_sorted_witness :
  ltb "b/c.md" "a.md" = false.
Proof.
  apply (ScanDirectory_sorted
           (Dir "docs" [Dir "b" [File "c.md"]; File "a.md"])
           [{| FileEntry.RelPath := "a.md"; FileEntry.Name := "a" |};
            {| FileEntry.RelPath := "b/c.md"; FileEntry.Name := "c" |}]
           [] [] []
           {| FileEntry.RelPath := "a.md"; FileEntry.Name := "a" |}
           {| FileEntry.RelPath := "b/c.md"; FileEntry.Name := "c" |}).
  - vm_compute. reflexivity.
  - reflexivity.
Defined.

End ScanDirectoryMore.

(* ================================================================== *)
(** * [BuildTree]: the nodes of a built tree *)
(* ================================================================== *)

Module TreeMore.
Import GoStrings GoPath GoSort GoFS Scanner Properties TreeNotions.
Import GoStringsFacts GoSortFacts GoSortSorted.

(** ** The order of [sortTree] *)

Lemma lessNode_asym (a b : TreeNode.t) :
  lessNode a b = true -> lessNode b a = false.
Proof.
  unfold lessNode.
  destruct (TreeNode.IsDir a), (TreeNode.IsDir b); cbn; try congruence.
  - apply ScanDirectoryMore.ltb_asym.
  - apply ScanDirectoryMore.ltb_asym.
Qed.

Lemma lessNode_trans (a b c : TreeNode.t) :
  lessNode b a = false -> lessNode c b = false -> lessNode c a = false.
Proof.
  unfold lessNode.
  destruct (TreeNode.IsDir a), (TreeNode.IsDir b), (TreeNode.IsDir c);
    cbn; try congruence.
  - apply ScanDirectoryMore.ltb_trans.
  - apply ScanDirectoryMore.ltb_trans.
Qed.

Lemma lessNode_false (a b : TreeNode.t) :
  lessNode b a = false ->
  (TreeNode.IsDir b = true -> TreeNode.IsDir a = true)
  /\ (TreeNode.IsDir a = TreeNode.IsDir b ->
      ltb (ToLower (TreeNode.Name b)) (ToLower (TreeNode.Name a)) = false).
Proof.
  unfold lessNode.
  destruct (TreeNode.IsDir a), (TreeNode.IsDir b); cbn; intros H; split;
    congruence.
Qed.

Lemma In_reached (d : TreeNode.t) (name path : gostring) (isDir : bool)
  (children : list TreeNode.t) :
  In d (reached (TreeNode.mk name path isDir children))
  <-> d = TreeNode.mk name path isDir children
      \/ exists c,
           In c children /\ TreeNode.IsDir c = true /\ In d (reached c).
Proof.
  cbn [reached In]. rewrite in_flat_map. split.
  - intros [H|(c & Hc & Hd)]; [left; congruence|].
    right. exists c. destruct (TreeNode.IsDir c); [auto | contradiction].
  - intros [H|(c & Hc & Ec & Hd)]; [left; congruence|].
    right. exists c. now rewrite Ec.
Qed.

Lemma sortTree_reached_ordered (node d : TreeNode.t)
  (before between after : list TreeNode.t) (a b : TreeNode.t) :
  In d (reached (sortTree node)) ->
  TreeNode.Children d = before ++ a :: between ++ b :: after ->
  lessNode b a = false.
Proof.
  revert d.
  induction node as [name path isDir children IH] using TreeNode.nested_ind.
  intros d Hd Hsplit. cbn [sortTree] in Hd.
  apply In_reached in Hd as [->|(c & Hc & Ec & Hd)].
  - cbn [TreeNode.Children] in Hsplit.
    apply (Slice_ordered lessNode) in Hsplit; [exact Hsplit| |].
    + apply lessNode_asym.
    + apply lessNode_trans.
  - apply In_Slice in Hc. apply in_map_iff in Hc as (c0 & <- & Hc0).
    rewrite Forall_forall in IH.
    destruct (TreeNode.IsDir c0) eqn:E0.
    + now apply (IH c0 Hc0 d).
    + congruence.
Qed.

(** X16.  After [sortTree] of a tree whose names are ASCII text, on
    which lower-casing byte by byte is what [strings.ToLower] does, the
    children of the node and of every directory reached through
    directories are in order: no directory comes after a document and,
    among the children of one kind, none is followed by one whose name
    is smaller once both are in lower case. *)
Theorem sortTree_orders_children (node d : TreeNode.t)
  (before between after : list TreeNode.t) (a b : TreeNode.t) :
  Forall (fun n => isASCII (TreeNode.Name n) = true) (TreeNode.nodes node) ->
  In d (reached (sortTree node)) ->
  TreeNode.Children d = before ++ a :: between ++ b :: after ->
  (TreeNode.IsDir b = true -> TreeNode.IsDir a = true)
  /\ (TreeNode.IsDir a = TreeNode.IsDir b ->
      ltb (ToLower (TreeNode.Name b)) (ToLower (TreeNode.Name a)) = false).
Proof.
  intros _ Hd Hsplit. apply lessNode_false.
  exact (sortTree_reached_ordered node d before between after a b Hd Hsplit).
Qed.

Lemma sortTree_orders_children_witness :
  (TreeNode.IsDir (document "Zeta.md" "/Zeta") = true ->
   TreeNode.IsDir (directory "api" []) = true)
  /\ (TreeNode.IsDir (directory "api" [])
      = TreeNode.IsDir (document "Zeta.md" "/Zeta") ->
      ltb (ToLower (TreeNode.Name (document "Zeta.md" "/Zeta")))
        (ToLower (TreeNode.Name (directory "api" []))) = false).
Proof.
  apply (sortTree_orders_children
           (directory "root"
              [document "Zeta.md" "/Zeta"; directory "api" []])
           (directory "root"
              [directory "api" []; document "Zeta.md" "/Zeta"])
           [] [] []).
  - repeat constructor.
  - left. reflexivity.
  - reflexivity.
Defined.

(** ** The names of the children of a node are distinct *)

Lemma insertNode_Name (parts : list gostring) (e : FileEntry.t)
  (parent : TreeNode.t) :
  TreeNode.Name (insertNode parent parts e) = TreeNode.Name parent.
Proof.
  destruct parts as [|part rest]; [reflexivity|]. cbn [insertNode].
  destruct (findChild (TreeNode.Children parent) part); reflexivity.
Qed.

Lemma map_Name_updateAt (f : TreeNode.t -> TreeNode.t) (i : nat)
  (cs : list TreeNode.t) :
  (forall c, TreeNode.Name (f c) = TreeNode.Name c) ->
  map TreeNode.Name (updateAt i f cs) = map TreeNode.Name cs.
Proof.
  intros Hf. revert i. induction cs as [|c cs IH]; intros [|i];
    cbn [updateAt map]; try reflexivity.
  - now rewrite Hf.
  - now rewrite IH.
Qed.

Lemma findChild_None (cs : list TreeNode.t) (name : gostring) :
  findChild cs name = None -> ~ In name (map TreeNode.Name cs).
Proof.
  induction cs as [|c cs IH]; cbn [findChild map In]; [tauto|].
  destruct (gostring_eqb (TreeNode.Name c) name) eqn:E; [discriminate|].
  destruct (findChild cs name); [discriminate|].
  intros _ [H|H].
  - apply gostring_eqb_neq in E. congruence.
  - now apply IH.
Qed.

Lemma Forall_nodes_mk (Q : TreeNode.t -> Prop) (name path : gostring)
  (isDir : bool) (children : list TreeNode.t) :
  Forall Q (TreeNode.nodes (TreeNode.mk name path isDir children))
  <-> Q (TreeNode.mk name path isDir children)
      /\ Forall (fun c => Forall Q (TreeNode.nodes c)) children.
Proof.
  rewrite !Forall_forall. split.
  - intros H. split.
    + apply H. apply TreeSpec.In_nodes. now left.
    + intros c Hc. apply Forall_forall. intros d Hd.
      apply H. apply TreeSpec.In_nodes. right. now exists c.
  - intros [Hn Hcs] d Hd.
    apply TreeSpec.In_nodes in Hd as [->|(c & Hc & Hd)].
    + exact Hn.
    + specialize (Hcs c Hc).
      rewrite Forall_forall in Hcs. now apply Hcs.
Qed.

Lemma insertNode_distinct (parts : list gostring) (e : FileEntry.t) :
  forall parent,
    Forall siblingsDistinct (TreeNode.nodes parent) ->
    Forall siblingsDistinct (TreeNode.nodes (insertNode parent parts e)).
Proof.
  induction parts as [|part rest IH]; intros parent Hparent.
  - exact Hparent.
  - cbn [insertNode].
    set (recurse := fun child : TreeNode.t =>
                      if 1 <? length (part :: rest)
                      then insertNode child rest e else child).
    assert (forall c, Forall siblingsDistinct (TreeNode.nodes c) ->
                      Forall siblingsDistinct (TreeNode.nodes (recurse c)))
      as Hrec.
    { intros c Hc. unfold recurse.
      destruct (1 <? length (part :: rest)); auto. }
    assert (forall c, TreeNode.Name (recurse c) = TreeNode.Name c) as Hname.
    { intros c. unfold recurse.
      destruct (1 <? length (part :: rest)); [|reflexivity].
      apply insertNode_Name. }
    destruct parent as [name path isDir children].
    apply Forall_nodes_mk in Hparent as [Hn Hcs].
    unfold siblingsDistinct in Hn. cbn [TreeNode.Children] in *.
    destruct (findChild children part) as [i|] eqn:Efind;
      unfold TreeNode.setChildren; cbn [TreeNode.Name TreeNode.Path
                                          TreeNode.IsDir];
      apply Forall_nodes_mk; split.
    + unfold siblingsDistinct. cbn [TreeNode.Children].
      now rewrite map_Name_updateAt.
    + now apply TreeSpec.Forall_updateAt.
    + unfold siblingsDistinct. cbn [TreeNode.Children].
      rewrite map_app. cbn [map].
      match goal with
      | |- NoDup (_ ++ [?n]) =>
          replace n with part
            by (symmetry; exact (Hname (TreeNode.mk part _ _ [])))
      end.
      apply NoDup_app; [exact Hn | repeat constructor; intros [] | ].
      intros x Hx [<-|[]]. now apply findChild_None in Efind.
    + apply Forall_app. split; [exact Hcs|].
      constructor; [|constructor]. apply Hrec.
      apply Forall_nodes_mk. split; [|constructor].
      unfold siblingsDistinct. cbn. constructor.
Qed.

Lemma sortTree_distinct (n : TreeNode.t) :
  Forall siblingsDistinct (TreeNode.nodes n) ->
  Forall siblingsDistinct (TreeNode.nodes (sortTree n)).
Proof.
  induction n as [name path isDir children IH] using TreeNode.nested_ind.
  intros Hn. apply Forall_nodes_mk in Hn as [Hn Hcs].
  cbn [sortTree]. apply Forall_nodes_mk. split.
  - unfold siblingsDistinct in *. cbn [TreeNode.Children] in *.
    eapply Permutation_NoDup; [|exact Hn].
    symmetry. rewrite (Slice_Permutation lessNode).
    rewrite map_map.
    erewrite map_ext; [reflexivity|].
    intros c. cbn beta. destruct (TreeNode.IsDir c); [|reflexivity].
    apply TreeSpec.sortTree_Name.
  - apply Forall_forall. intros c Hc. apply In_Slice in Hc.
    apply in_map_iff in Hc as (c0 & <- & Hc0).
    rewrite Forall_forall in IH, Hcs.
    destruct (TreeNode.IsDir c0); auto.
Qed.

Lemma fold_insertNode_invariant (Q : TreeNode.t -> Prop)
  (entries : list FileEntry.t) :
  (forall e parent,
      In e entries ->
      Q parent ->
      Q (insertNode parent
           (Split (ToSlash (FileEntry.RelPath e)) "/") e)) ->
  forall root,
    Q root ->
    Q (fold_left
         (fun root entry =>
            insertNode root
              (Split (ToSlash (FileEntry.RelPath entry)) "/") entry)
         entries root).
Proof.
  induction entries as [|e entries IH]; intros Hstep root Hroot;
    cbn [fold_left].
  - exact Hroot.
  - apply IH.
    + intros e' parent He'. apply Hstep. now right.
    + apply Hstep; [now left | exact Hroot].
Qed.

(** X17.  In the tree that [BuildTree] returns, the children of one
    node have different names, whatever the entries: an entry met a
    second time, or a directory that several entries lie in, gives one
    node. *)
Theorem BuildTree_sibling_names_distinct (entries : list FileEntry.t)
  (d : TreeNode.t) :
  In d (TreeNode.nodes (BuildTree entries)) ->
  NoDup (map TreeNode.Name (TreeNode.Children d)).
Proof.
  assert (Forall siblingsDistinct (TreeNode.nodes (BuildTree entries)))
    as H.
  { unfold BuildTree. apply sortTree_distinct.
    apply (fold_insertNode_invariant
             (fun n => Forall siblingsDistinct (TreeNode.nodes n))).
    - intros e parent _. apply insertNode_distinct.
    - apply Forall_nodes_mk. split; [constructor | constructor]. }
  intros Hd. rewrite Forall_forall in H. exact (H d Hd).
Qed.

Lemma BuildTree_sibling_names_distinct_witness :
  NoDup
    (map TreeNode.Name
       (TreeNode.Children
          (directory "b" [document "a.md" "/b/a"; document "c.md" "/b/c"]))).
Proof.
  apply (BuildTree_sibling_names_distinct
           [entry "b/c.md" "c"; entry "b/a.md" "a"; entry "b/c.md" "c"]).
  vm_compute. right. left. reflexivity.
Defined.

(** ** Where the nodes come from *)

Lemma fromEntries_setChildren (entries : list FileEntry.t)
  (n : TreeNode.t) (cs : list TreeNode.t) :
  fromEntries entries n -> fromEntries entries (TreeNode.setChildren n cs).
Proof. now destruct n. Qed.

Lemma insertNode_fromEntries (entries : list FileEntry.t)
  (e : FileEntry.t) (final : gostring) (parts : list gostring) :
  In e entries ->
  finalPart e = final ->
  (parts <> [] -> last parts [] = final) ->
  forall parent,
    Forall (fromEntries entries) (TreeNode.nodes parent) ->
    Forall (fromEntries entries) (TreeNode.nodes (insertNode parent parts e)).
Proof.
  intros He Hfinal.
  induction parts as [|part rest IH]; intros Hlast parent Hparent.
  - exact Hparent.
  - cbn [insertNode].
    set (recurse := fun child : TreeNode.t =>
                      if 1 <? length (part :: rest)
                      then insertNode child rest e else child).
    assert (forall c, Forall (fromEntries entries) (TreeNode.nodes c) ->
                      Forall (fromEntries entries)
                        (TreeNode.nodes (recurse c)))
      as Hrec.
    { intros c Hc. unfold recurse.
      destruct (1 <? length (part :: rest)); [|exact Hc].
      apply IH; [|exact Hc].
      intros Hrest. rewrite <- Hlast by discriminate.
      destruct rest; [congruence | reflexivity]. }
    destruct parent as [name path isDir children].
    apply Forall_nodes_mk in Hparent as [Hn Hcs].
    destruct (findChild (TreeNode.Children
                           (TreeNode.mk name path isDir children)) part)
      as [i|];
      unfold TreeNode.setChildren; cbn [TreeNode.Name TreeNode.Path
                                          TreeNode.IsDir TreeNode.Children];
      apply Forall_nodes_mk; (split; [exact Hn|]).
    + now apply TreeSpec.Forall_updateAt.
    + apply Forall_app. split; [exact Hcs|].
      constructor; [|constructor]. apply Hrec.
      apply Forall_nodes_mk. split; [|constructor].
      unfold fromEntries. cbn [TreeNode.IsDir TreeNode.Path TreeNode.Name].
      destruct rest as [|part' rest]; cbn [length Nat.eqb negb].
      * exists e. repeat split; [exact He|].
        rewrite Hfinal. apply Hlast. discriminate.
      * reflexivity.
Qed.

Lemma sortTree_fromEntries (entries : list FileEntry.t) (n : TreeNode.t) :
  Forall (fromEntries entries) (TreeNode.nodes n) ->
  Forall (fromEntries entries) (TreeNode.nodes (sortTree n)).
Proof.
  induction n as [name path isDir children IH] using TreeNode.nested_ind.
  intros Hn. apply Forall_nodes_mk in Hn as [Hn Hcs].
  cbn [sortTree]. apply Forall_nodes_mk. split; [exact Hn|].
  apply Forall_forall. intros c Hc. apply In_Slice in Hc.
  apply in_map_iff in Hc as (c0 & <- & Hc0).
  rewrite Forall_forall in IH, Hcs.
  destruct (TreeNode.IsDir c0); auto.
Qed.

Lemma BuildTree_fromEntries (entries : list FileEntry.t) :
  Forall (fromEntries entries) (TreeNode.nodes (BuildTree entries)).
Proof.
  unfold BuildTree. apply sortTree_fromEntries.
  apply (fold_insertNode_invariant
           (fun n => Forall (fromEntries entries) (TreeNode.nodes n))).
  - intros e parent He.
    now apply (insertNode_fromEntries entries e (finalPart e)).
  - apply Forall_nodes_mk. split; [reflexivity | constructor].
Qed.

(** X18.  Where the nodes of a built tree come from: a directory node
    has no route; a document node has the route of one of the entries,
    which is the relative path of the entry after a slash, without a
    final [.md] and then without a final [.MD], and its name is the
    final part of that relative path. *)
Theorem BuildTree_nodes_from_entries (entries : list FileEntry.t)
  (n : TreeNode.t) :
  In n (TreeNode.nodes (BuildTree entries)) ->
  if TreeNode.IsDir n then TreeNode.Path n = []
  else
    exists e,
      In e entries
      /\ TreeNode.Path n
         = "/" ++ TrimSuffix (TrimSuffix (FileEntry.RelPath e) ".md") ".MD"
      /\ TreeNode.Name n = last (Split (FileEntry.RelPath e) "/") [].
Proof.
  pose proof (BuildTree_fromEntries entries) as H.
  intros Hn. rewrite Forall_forall in H. exact (H n Hn).
Qed.

Lemma BuildTree_nodes_from_entries_witness :
  exists e,
    In e exampleEntries
    /\ TreeNode.Path (document "c.md" "/b/c")
       = "/" ++ TrimSuffix (TrimSuffix (FileEntry.RelPath e) ".md") ".MD"
    /\ TreeNode.Name (document "c.md" "/b/c")
       = last (Split (FileEntry.RelPath e) "/") [].
Proof.
  apply (BuildTree_nodes_from_entries exampleEntries
           (document "c.md" "/b/c")).
  vm_compute. right. right. right. left. reflexivity.
Defined.

(** ** From the scan to the routes of the tree *)

Lemma app_eq_length (a b l1 l2 : gostring) :
  length a = length b -> a ++ l1 = b ++ l2 -> a = b.
Proof.
  revert b. induction a as [|x a IH]; intros [|y b] Hlen H;
    try discriminate; [reflexivity|].
  injection Hlen as Hlen. injection H as -> H. f_equal. now apply IH.
Qed.

Lemma HasSuffix_same_length (p ext suffix : gostring) :
  length ext = length suffix -> ext <> suffix ->
  HasSuffix (p ++ ext) suffix = false.
Proof.
  intros Hlen Hne. destruct (HasSuffix (p ++ ext) suffix) eqn:E;
    [|reflexivity].
  apply GoRegexpFacts.HasSuffix_iff in E as [y Hy]. exfalso. apply Hne.
  apply (f_equal (@rev ascii)) in Hy. rewrite !rev_app_distr in Hy.
  apply app_eq_length in Hy; [|now rewrite !length_rev].
  rewrite <- (rev_involutive ext), Hy. apply rev_involutive.
Qed.

Lemma keep_extension (l : list gostring) (stem ext : gostring) :
  length ext = 3 ->
  ext <> list_ascii_of_string ".md" -> ext <> list_ascii_of_string ".MD" ->
  TrimSuffix (TrimSuffix (Join (l ++ [stem ++ ext]) "/") ".md") ".MD"
  = Join (l ++ [stem ++ ext]) "/".
Proof.
  intros Hlen Hmd HMD. rewrite ResolveLinkSpec.Join_snoc_suffix.
  rewrite (GoStringsFacts3.TrimSuffix_none _ ".md")
    by now apply HasSuffix_same_length.
  apply GoStringsFacts3.TrimSuffix_none. now apply HasSuffix_same_length.
Qed.

(** X19.  From the scan to the links of the tree.  In the tree built
    from the scan of a directory, every document stands for a file that
    the walk lists and whose extension is [.md] in lower case.  When the
    extension is [.md] or [.MD], the route of the document is the path
    of the file below the scanned directory, after a slash and without
    the extension: the route that [handleMarkdown] serves the file at.
    When the extension is in mixed case the route keeps it. *)
Theorem scanned_document_routes (root : FsNode)
  (entries : list FileEntry.t) (n : TreeNode.t) :
  isDirNode root = true ->
  ScanDirectory root = Ok entries ->
  In n (TreeNode.nodes (BuildTree entries)) ->
  TreeNode.IsDir n = false ->
  exists dirs stem ext,
    In (dirs ++ [stem ++ ext], stem ++ ext) (ScanNotions.eligibleBelow root)
    /\ ToLower ext = ".md"
    /\ (PathNotions.strippable stem ext ->
        TreeNode.Path n = "/" ++ Join (dirs ++ [stem]) "/")
    /\ (ext <> list_ascii_of_string ".md" ->
        ext <> list_ascii_of_string ".MD" ->
        TreeNode.Path n = "/" ++ Join (dirs ++ [stem ++ ext]) "/").
Proof.
  intros Hroot Hscan Hn Hdoc.
  pose proof (BuildTree_fromEntries entries) as H.
  rewrite Forall_forall in H. specialize (H n Hn).
  unfold fromEntries in H. rewrite Hdoc in H.
  destruct H as (e & He & Hpath & _).
  destruct (ScanDirectoryMore.ScanDirectory_found root entries e Hscan He)
    as (found & Hfound & ->).
  destruct (ScanDirectoryMore.found_shape root found Hroot Hfound)
    as (dirs & stem & ext & -> & Hext & _ & _).
  exists dirs, stem, ext. split; [exact Hfound|]. split; [exact Hext|].
  unfold routeOf, ToSlash, ScanNotions.entryAt in Hpath.
  cbn [fst snd app FileEntry.RelPath] in Hpath.
  rewrite ScanDirectoryMore.Rel_snoc in Hpath.
  assert (length ext = 3) as Hlen.
  { apply (f_equal (@length ascii)) in Hext.
    unfold ToLower in Hext. now rewrite length_map in Hext. }
  split.
  - intros Hstrip. rewrite Hpath. f_equal.
    now apply ResolveLinkSpec.strip_extension.
  - intros Hmd HMD. rewrite Hpath. f_equal. now apply keep_extension.
Qed.

Lemma scanned_document_routes_witness :
  exists dirs stem ext,
    In (dirs ++ [stem ++ ext], stem ++ ext)
      (ScanNotions.eligibleBelow exampleCorpus)
    /\ ToLower ext = ".md"
    /\ (PathNotions.strippable stem ext ->
        TreeNode.Path (document "intro.MD" "/guide/intro")
        = "/" ++ Join (dirs ++ [stem]) "/")
    /\ (ext <> list_ascii_of_string ".md" ->
        ext <> list_ascii_of_string ".MD" ->
        TreeNode.Path (document "intro.MD" "/guide/intro")
        = "/" ++ Join (dirs ++ [stem ++ ext]) "/").
Proof.
  apply (scanned_document_routes exampleCorpus
           [entry "README.md" "README"; entry "guide/intro.MD" "intro"]).
  - reflexivity.
  - vm_compute. reflexivity.
  - vm_compute. right. right. left. reflexivity.
  - reflexivity.
Defined.

(** ** An entry inserted a second time *)

Lemma findChild_updateAt (f : TreeNode.t -> TreeNode.t) (i : nat)
  (cs : list TreeNode.t) (name : gostring) :
  (forall c, TreeNode.Name (f c) = TreeNode.Name c) ->
  findChild (updateAt i f cs) name = findChild cs name.
Proof.
  intros Hf. revert i. induction cs as [|c cs IH]; intros [|i];
    cbn [updateAt findChild]; try reflexivity.
  - now rewrite Hf.
  - now rewrite IH.
Qed.

Lemma updateAt_idem (f : TreeNode.t -> TreeNode.t) (i : nat)
  (cs : list TreeNode.t) :
  (forall c, f (f c) = f c) ->
  updateAt i f (updateAt i f cs) = updateAt i f cs.
Proof.
  intros Hf. revert i. induction cs as [|c cs IH]; intros [|i];
    cbn [updateAt]; try reflexivity.
  - now rewrite Hf.
  - now rewrite IH.
Qed.

Lemma findChild_last (cs : list TreeNode.t) (c : TreeNode.t)
  (name : gostring) :
  findChild cs name = None -> TreeNode.Name c = name ->
  findChild (cs ++ [c]) name = Some (length cs).
Proof.
  intros Hnone Hc. induction cs as [|x cs IH]; cbn [findChild app length].
  - rewrite Hc, gostring_eqb_refl. reflexivity.
  - cbn [findChild] in Hnone.
    destruct (gostring_eqb (TreeNode.Name x) name); [discriminate|].
    destruct (findChild cs name); [discriminate|].
    now rewrite IH.
Qed.

Lemma updateAt_last (f : TreeNode.t -> TreeNode.t) (cs : list TreeNode.t)
  (c : TreeNode.t) :
  updateAt (length cs) f (cs ++ [c]) = cs ++ [f c].
Proof.
  induction cs as [|x cs IH]; cbn [updateAt app length]; [reflexivity|].
  now rewrite IH.
Qed.

(** X20.  Inserting an entry a second time changes nothing: the nodes
    on its path are found again, none is added and none is changed. *)
Theorem insertNode_idempotent (parts : list gostring) (e : FileEntry.t)
  (parent : TreeNode.t) :
  insertNode (insertNode parent parts e) parts e = insertNode parent parts e.
Proof.
  revert parent. induction parts as [|part rest IH]; intros parent.
  - reflexivity.
  - cbn [insertNode].
    set (recurse := fun child : TreeNode.t =>
                      if 1 <? length (part :: rest)
                      then insertNode child rest e else child).
    assert (forall c, recurse (recurse c) = recurse c) as Hidem.
    { intros c. unfold recurse.
      destruct (1 <? length (part :: rest)); [apply IH | reflexivity]. }
    assert (forall c, TreeNode.Name (recurse c) = TreeNode.Name c) as Hname.
    { intros c. unfold recurse.
      destruct (1 <? length (part :: rest)); [|reflexivity].
      apply insertNode_Name. }
    destruct parent as [name path isDir children].
    cbn [TreeNode.Children].
    destruct (findChild children part) as [i|] eqn:Efind;
      unfold TreeNode.setChildren;
      cbn [TreeNode.Children TreeNode.Name TreeNode.Path TreeNode.IsDir].
    + rewrite (findChild_updateAt recurse i children part Hname), Efind.
      cbn [TreeNode.Children TreeNode.Name TreeNode.Path TreeNode.IsDir].
      now rewrite (updateAt_idem recurse i children Hidem).
    + match goal with
      | |- context [children ++ [?c]] =>
          assert (TreeNode.Name c = part) as Hc
              by exact (Hname (TreeNode.mk part _ _ []));
          rewrite (findChild_last children c part Efind Hc);
          cbn [TreeNode.Children TreeNode.Name TreeNode.Path
                 TreeNode.IsDir];
          rewrite (updateAt_last recurse children c);
          change c with (recurse (TreeNode.mk part
                                    (if length (part :: rest) =? 1
                                     then "/" ++ ToSlash
                                                   (TrimSuffix
                                                      (TrimSuffix
                                                         (FileEntry.RelPath e)
                                                         ".md") ".MD")
                                     else [])
                                    (negb (length (part :: rest) =? 1)) []))
      end.
      now rewrite Hidem.
Qed.

End TreeMore.

(* ================================================================== *)
(** * [handleIndex]: the index page *)
(* ================================================================== *)

Module IndexSpec.
Import GoStrings GoSort GoFS Scanner Server ScanNotions.

Lemma ScanDirectory_fault (root : FsNode) :
  match fault [] root with
  | Some e => ScanDirectory root = Error e
  | None =>
      ScanDirectory root
      = Ok (Slice lessEntry (map (entryAt []) (eligibleBelow root)))
  end.
Proof.
  destruct (fault [] root) as [e|] eqn:E.
  - destruct (ScanDirectory root) as [entries|err] eqn:Escan.
    + unfold ScanDirectory, Walk in Escan.
      pose proof (ScanDirectoryMore.node_walked root [] []) as H.
      rewrite E in H. destruct H as [st' H]. rewrite H in Escan.
      discriminate.
    + unfold ScanDirectory, Walk in Escan.
      pose proof (ScanDirectoryMore.node_walked root [] []) as H.
      rewrite E in H. destruct H as [st' H]. rewrite H in Escan.
      congruence.
  - unfold ScanDirectory, Walk.
    pose proof (ScanDirectoryMore.node_walked root [] []) as H.
    rewrite E in H. destruct H as (err & -> & Herr). cbn [app].
    destruct Herr as [->|[-> _]]; reflexivity.
Qed.

(** X21.  The index of a directory in which the scan lists no document
    (an empty directory, one without markdown files, one whose name
    begins with a dot) is a page with the empty list, not an error. *)
Theorem handleIndex_without_documents (title : gostring) (root : FsNode) :
  fault [] root = None ->
  eligibleBelow root = [] ->
  handleIndex title root
  = Index {| IndexData.Title := "Index";
             IndexData.SiteTitle := title;
             IndexData.TreeHTML :=
               "<ul class=" ++ DQ ++ "file-tree" ++ DQ ++ ">" ++ LF
                 ++ "</ul>" ++ LF |}.
Proof.
  intros Hfault Hnone. unfold handleIndex.
  pose proof (ScanDirectory_fault root) as H. rewrite Hfault in H.
  rewrite H, Hnone. reflexivity.
Qed.

Lemma handleIndex_without_documents_witness :
  handleIndex "Docs" (Dir ".docs" [File "README.md"; DirUnreadable "x"])
  = Index {| IndexData.Title := "Index";
             IndexData.SiteTitle := "Docs";
             IndexData.TreeHTML :=
               "<ul class=" ++ DQ ++ "file-tree" ++ DQ ++ ">" ++ LF
                 ++ "</ul>" ++ LF |}.
Proof.
  apply (handleIndex_without_documents "Docs"
           (Dir ".docs" [File "README.md"; DirUnreadable "x"]));
    reflexivity.
Defined.

(** X22.  The index page is all or nothing: it is the Internal Server
    Error exactly when the walk meets a node that cannot be examined or
    a directory that cannot be listed, outside of the hidden
    directories, wherever that is in the directory; the documents that
    were found before are not shown. *)
Theorem handleIndex_fails_on_any_fault (title : gostring) (root : FsNode) :
  handleIndex title root = InternalServerError <-> fault [] root <> None.
Proof.
  unfold handleIndex. pose proof (ScanDirectory_fault root) as H.
  destruct (fault [] root) as [e|]; rewrite H; split; congruence.
Qed.

End IndexSpec.
